(** * Pokemon Dataset Curator: folder-name classification, canonical
      folder names, tag processing and the rename pass.

    A shallow embedding of [mass_pokemon_dataset_curator.py].

    Python strings are modelled as lists of characters ([list ascii]), and
    the embedding is that of the program on ASCII strings: the case mapping
    ([str.lower], [str.capitalize]), the whitespace class of [str.strip]
    and the character classes of the regular expressions are the ASCII
    ones, which is what Python does on the characters below 128.
    Characters with code 128 and above are left alone by the case mapping,
    are no whitespace and belong to no class.  A statement that Python
    breaks outside ASCII says that its strings are ASCII ([is_ascii]).

    Under [re.IGNORECASE] the patterns of [extract_pokemon_name] reach
    four characters outside ASCII.  [Unicode.extract_pokemon_name] is the
    classifier on strings of code points, with those characters; on ASCII
    strings it is [extract_pokemon_name]. *)

From Stdlib Require Import Ascii String.
From stdpp Require Import base option list gmap strings.

Local Open Scope list_scope.

Abbreviation str := (list ascii).

(** String literals of the source, as character lists. *)
Definition str_of (s : string) : str := list_ascii_of_string s.

(** ** Characters *)

Definition code (c : ascii) : nat := nat_of_ascii c.

Definition is_upper (c : ascii) : bool := (65 <=? code c) && (code c <=? 90).
Definition is_lower (c : ascii) : bool := (97 <=? code c) && (code c <=? 122).
Definition is_digit (c : ascii) : bool := (48 <=? code c) && (code c <=? 57).

(** The characters of ASCII. *)
Definition is_ascii (c : ascii) : bool := code c <? 128.

(** [str.lower] and [str.upper] on one character of ASCII. *)
Definition char_lower (c : ascii) : ascii :=
  if is_upper c then ascii_of_nat (code c + 32) else c.
Definition char_upper (c : ascii) : ascii :=
  if is_lower c then ascii_of_nat (code c - 32) else c.

(** The characters [str.strip()] removes: tab, line feed, vertical tab,
    form feed, carriage return, the four separators 28..31 and space. *)
Definition is_space (c : ascii) : bool :=
  ((9 <=? code c) && (code c <=? 13)) || ((28 <=? code c) && (code c <=? 32)).

(** The class [[a-zA-Z0-9_-]] of the four patterns. *)
Definition is_name_char (c : ascii) : bool :=
  is_lower c || is_upper c || is_digit c
  || bool_decide (c = "_"%char) || bool_decide (c = "-"%char).

(** The class [[_-]] of [re.split]. *)
Definition is_sep (c : ascii) : bool :=
  bool_decide (c = "_"%char) || bool_decide (c = "-"%char).

Definition is_comma (c : ascii) : bool := bool_decide (c = ","%char).

(** ** String operations of the Python runtime *)

(** [s.lower()] *)
Definition lower (s : str) : str := map char_lower s.

Fixpoint lstrip (s : str) : str :=
  match s with
  | [] => []
  | c :: t => if is_space c then lstrip t else s
  end.

Fixpoint rstrip (s : str) : str :=
  match s with
  | [] => []
  | c :: t =>
      match rstrip t with
      | [] => if is_space c then [] else [c]
      | r => c :: r
      end
  end.

(** [s.strip()] *)
Definition strip (s : str) : str := rstrip (lstrip s).

(** [s.capitalize()]: first character upper case, the rest lower case. *)
Definition capitalize (s : str) : str :=
  match s with
  | [] => []
  | c :: t => char_upper c :: lower t
  end.

(** [s.split(',')] and [re.split(r'[_-]', s)]: cut at every separator
    character, empty pieces kept; the result is never empty. *)
Fixpoint split_on (sep : ascii -> bool) (s : str) : list str :=
  match s with
  | [] => [[]]
  | c :: t =>
      if sep c then [] :: split_on sep t
      else match split_on sep t with
           | p :: ps => (c :: p) :: ps
           | [] => [[c]]
           end
  end.

(** [sep.join(l)] *)
Fixpoint join (sep : str) (l : list str) : str :=
  match l with
  | [] => []
  | x :: t => match t with
              | [] => x
              | _ :: _ => x ++ sep ++ join sep t
              end
  end.

Fixpoint is_prefix (p s : str) : bool :=
  match p, s with
  | [], _ => true
  | _ :: _, [] => false
  | a :: p', b :: s' => bool_decide (a = b) && is_prefix p' s'
  end.

(** [needle in hay] *)
Fixpoint contains (needle hay : str) : bool :=
  match hay with
  | [] => is_prefix needle []
  | _ :: t => is_prefix needle hay || contains needle t
  end.

(** [s.split(', ')]: cut at every occurrence of a comma followed by a
    space, scanning from the left. *)
Fixpoint split_comma_space (s : str) : list str :=
  match s with
  | [] => [[]]
  | c :: t =>
      match t with
      | d :: t' =>
          if is_comma c && bool_decide (d = " "%char)
          then [] :: split_comma_space t'
          else match split_comma_space t with
               | p :: ps => (c :: p) :: ps
               | [] => [[c]]
               end
      | [] => [[c]]
      end
  end.

(** ** The regular expressions of [extract_pokemon_name]

    All four patterns have the shape [^([a-zA-Z0-9_-]+)<literal>$].
    [re.match] is modelled for that shape: the group is greedy, so it first
    takes the whole leading run of class characters and then gives
    characters back one at a time until the rest of the pattern matches;
    [$] matches at the end of the string and also just before a line feed
    that ends the string. *)

Definition newline : ascii := ascii_of_nat 10.

(** One literal pattern character against one input character. *)
Definition lit_eqb (ignorecase : bool) (p c : ascii) : bool :=
  if ignorecase then bool_decide (char_lower p = char_lower c)
  else bool_decide (p = c).

(** The literal [pat] at the start of [s]; what follows it. *)
Fixpoint match_literal (ignorecase : bool) (pat s : str) : option str :=
  match pat with
  | [] => Some s
  | p :: pat' =>
      match s with
      | [] => None
      | c :: s' =>
          if lit_eqb ignorecase p c then match_literal ignorecase pat' s'
          else None
      end
  end.

(** [$] *)
Definition at_end (s : str) : bool :=
  bool_decide (s = []) || bool_decide (s = [newline]).

(** [<literal>$] *)
Definition match_tail (ignorecase : bool) (literal s : str) : bool :=
  match match_literal ignorecase literal s with
  | Some r => at_end r
  | None => false
  end.

(** Length of the leading run of class characters. *)
Fixpoint name_run (s : str) : nat :=
  match s with
  | [] => 0
  | c :: t => if is_name_char c then S (name_run t) else 0
  end.

(** The group holding [k] characters, then [k - 1], ... down to one. *)
Fixpoint backtrack (ignorecase : bool) (literal s : str) (k : nat) : option str :=
  match k with
  | 0 => None
  | S k' =>
      if match_tail ignorecase literal (drop k s) then Some (take k s)
      else backtrack ignorecase literal s k'
  end.

(** [re.match(r'^([a-zA-Z0-9_-]+)<literal>$', s, flags)]: [group(1)] of
    the match, or [None]. *)
Definition re_match_name (ignorecase : bool) (literal s : str) : option str :=
  backtrack ignorecase literal s (name_run s).

(** ** Name Pattern Classifier *)

Definition extract_pokemon_name (folder_name : str) : option str :=
  match re_match_name true (str_of "Pokedex_IXL") folder_name with
  | Some g => Some (lower g)
  | None =>
  match re_match_name true (str_of "_(pokemon)") folder_name with
  | Some g => Some (lower g)
  | None =>
  match re_match_name true (str_of "_pokemon") folder_name with
  | Some g => Some (lower g)
  | None =>
  match re_match_name false [] folder_name with
  | Some g =>
      if negb (contains (str_of "pokedex") (lower folder_name))
         && negb (contains (str_of "(pokemon)") (lower folder_name))
      then Some (lower g)
      else None
  | None => None
  end end end end.

(** ** Name Canonicalizer *)

(** [''.join(part.capitalize() for part in re.split(r'[_-]', name))] *)
Definition capitalized (pokemon_name : str) : str :=
  concat (map capitalize (split_on is_sep pokemon_name)).

Definition get_standard_folder_name (pokemon_name : str) : str :=
  capitalized pokemon_name ++ str_of "Pokedex_IXL".

Definition should_rename_folder (folder_name pokemon_name : str) : bool :=
  negb (bool_decide (folder_name = get_standard_folder_name pokemon_name)).

(** ** Tag Processor *)

(** The loop that removes duplicates: [seen] is the set of tags met so
    far, [unique_tags] grows at its end. *)
Definition dedup_step (st : gset str * list str) (tag : str) : gset str * list str :=
  let '(seen, unique_tags) := st in
  if decide (tag ∈ seen) then st
  else ({[tag]} ∪ seen, unique_tags ++ [tag]).

Definition dedup (tags : list str) : list str :=
  snd (foldl dedup_step (∅, []) tags).

Definition pokemon_tag (pokemon_name : str) : str :=
  pokemon_name ++ str_of "_(pokemon)".

Definition trigger_tag (pokemon_name : str) : str :=
  str_of "zz" ++ capitalized pokemon_name ++ str_of "C1tr0n".

Definition nonempty (tag : str) : bool :=
  match tag with [] => false | _ :: _ => true end.

Definition process_tags (tags_str pokemon_name : str) (tags_to_absorb : gset str) : str :=
  let tags := map (fun tag => lower (strip tag)) (split_on is_comma tags_str) in
  let tags := filter (fun tag => nonempty tag = true) tags in
  let tags := filter (fun tag => tag ≠ pokemon_tag pokemon_name) tags in
  let tags := filter (fun tag => tag ∉ tags_to_absorb) tags in
  let unique_tags := dedup tags in
  let trigger_tag_lower := lower (trigger_tag pokemon_name) in
  let final_tags :=
    if existsb (fun tag => bool_decide (tag = trigger_tag_lower)) unique_tags
    then unique_tags
    else trigger_tag pokemon_name :: unique_tags in
  join (str_of ", ") final_tags.

(** The characters of a subject name: [[a-z0-9_-]]. *)
Definition is_subject_char (c : ascii) : bool :=
  is_lower c || is_digit c
  || bool_decide (c = "_"%char) || bool_decide (c = "-"%char).

(** A subject name as the classifier produces it. *)
Definition is_subject_name (n : str) : bool :=
  nonempty n && forallb is_subject_char n.

(** The shape [<name><literal>]: a non-empty name over the class, then
    the literal, compared without regard to case. *)
Definition has_suffix_shape (literal x : str) : bool :=
  let n := length x - length literal in
  (0 <? n) && (length literal <=? length x)
  && forallb is_name_char (take n x)
  && bool_decide (lower (drop n x) = lower literal).

(** The stages of [process_tags], named for the proofs. *)

Definition tag_pieces (tags_str : str) : list str :=
  map (fun tag => lower (strip tag)) (split_on is_comma tags_str).

Definition keep_tags (pokemon_name : str) (tags_to_absorb : gset str)
    (tags : list str) : list str :=
  filter (fun tag => tag ∉ tags_to_absorb)
    (filter (fun tag => tag ≠ pokemon_tag pokemon_name)
       (filter (fun tag => nonempty tag = true) tags)).

Definition clean_tags (pokemon_name : str) (tags_to_absorb : gset str)
    (tags : list str) : list str :=
  dedup (keep_tags pokemon_name tags_to_absorb tags).

(** The tags the three filters let through. *)
Definition kept (pokemon_name : str) (tags_to_absorb : gset str) (tag : str) : Prop :=
  nonempty tag = true /\ tag ≠ pokemon_tag pokemon_name /\ tag ∉ tags_to_absorb.

Definition final_tags (pokemon_name : str) (unique_tags : list str) : list str :=
  if existsb (fun tag => bool_decide (tag = lower (trigger_tag pokemon_name)))
       unique_tags
  then unique_tags
  else trigger_tag pokemon_name :: unique_tags.

(** The removal of duplicates as a function of the tags still to come,
    for a given set of tags already seen. *)
Fixpoint dedup_from (seen : gset str) (tags : list str) : list str :=
  match tags with
  | [] => []
  | tag :: rest =>
      if decide (tag ∈ seen) then dedup_from seen rest
      else tag :: dedup_from ({[tag]} ∪ seen) rest
  end.

Definition no_comma (s : str) : bool := forallb (fun c => negb (is_comma c)) s.

(** A tag as [process_tags] keeps it: splitting, trimming and lowering
    it gives the tag itself. *)
Definition is_atom (tag : str) : Prop := tag_pieces tag = [tag].

(** ** Folder Orchestrator

    One pass of [main] over a dataset directory.  The directory is a finite
    map from entry names to what is stored under them; of a folder only its
    [*.txt] files matter, each with its text.  [ispokemon] is the external
    name database. *)

Inductive node :=
| File
| Dir (txt_files : gmap str str).

Inductive reason := UnrecognizedFormat | NotInDatabase.

(** The lines the rename loop prints. *)
Inductive event :=
| Renamed (old_name new_name : str)
| RenameWarning (old_name new_name : str)
| RenameError (old_name : str).

(** The three lists the first loop of [main] fills, and the calls of
    [ispokemon] made so far: the argument of each call, in order. *)
Record triage := {
  folders_to_process : list (str * str);
  folders_to_rename : list (str * str);
  unprocessed_folders : list (str * reason);
  queries : list str
}.

(** A call of the external [ispokemon]: its answer, and the argument of
    the call added to the calls made. *)
Definition call_ispokemon (ispokemon : str -> bool) (argument : str)
    (calls : list str) : bool * list str :=
  (ispokemon argument, calls ++ [argument]).

Definition triage_step (ispokemon : str -> bool) (t : triage) (folder : str) : triage :=
  match extract_pokemon_name folder with
  | None =>
      {| folders_to_process := folders_to_process t;
         folders_to_rename := folders_to_rename t;
         unprocessed_folders := unprocessed_folders t ++ [(folder, UnrecognizedFormat)];
         queries := queries t |}
  | Some pokemon_name =>
      let '(known, calls) :=
        call_ispokemon ispokemon (capitalize pokemon_name) (queries t) in
      if negb known then
        {| folders_to_process := folders_to_process t;
           folders_to_rename := folders_to_rename t;
           unprocessed_folders := unprocessed_folders t ++ [(folder, NotInDatabase)];
           queries := calls |}
      else
        {| folders_to_process := folders_to_process t ++ [(folder, pokemon_name)];
           folders_to_rename :=
             if should_rename_folder folder pokemon_name
             then folders_to_rename t ++ [(folder, get_standard_folder_name pokemon_name)]
             else folders_to_rename t;
           unprocessed_folders := unprocessed_folders t;
           queries := calls |}
  end.

Definition triage_folders (ispokemon : str -> bool) (all_folders : list str) : triage :=
  foldl (triage_step ispokemon)
    {| folders_to_process := []; folders_to_rename := [];
       unprocessed_folders := []; queries := [] |}
    all_folders.

(** The rename loop: directory, [rename_map] and printed lines. *)
Definition rename_step (st : gmap str node * gmap str str * list event)
    (item : str * str) : gmap str node * gmap str str * list event :=
  let '(disk, rename_map, log) := st in
  let '(old_folder, new_name) := item in
  match disk !! new_name with
  | Some _ => (disk, rename_map, log ++ [RenameWarning old_folder new_name])
  | None =>
      match disk !! old_folder with
      | Some n =>
          (<[new_name := n]> (delete old_folder disk),
           <[old_folder := new_name]> rename_map,
           log ++ [Renamed old_folder new_name])
      | None => (disk, rename_map, log ++ [RenameError old_folder])
      end
  end.

Definition rename_folders (to_rename : list (str * str))
    (st : gmap str node * gmap str str * list event) :=
  foldl rename_step st to_rename.

(** [updated_folders]: every candidate with the path it now has. *)
Definition resolve (rename_map : gmap str str) (item : str * str) : str * str :=
  (default item.1 (rename_map !! item.1), item.2).

(** [process_txt_files]: every [*.txt] file of the folder is read, trimmed,
    processed and written back. *)
Definition curate_txt (pokemon_name : str) (tags_to_absorb : gset str)
    (txt_files : gmap str str) : gmap str str :=
  (fun content => process_tags (strip content) pokemon_name tags_to_absorb)
    <$> txt_files.

Definition process_txt_files (tags_to_absorb : gset str)
    (disk : gmap str node) (item : str * str) : gmap str node :=
  match disk !! item.1 with
  | Some (Dir txt_files) =>
      <[item.1 := Dir (curate_txt item.2 tags_to_absorb txt_files)]> disk
  | _ => disk
  end.

Record report := {
  disk_after : gmap str node;
  printed : list event;
  unprocessed : list (str * reason)
}.

(** The body of the loop of [main] for one dataset directory whose
    folders are listed as [all_folders]. *)
Definition curate (ispokemon : str -> bool) (tags_to_absorb : gset str)
    (disk : gmap str node) (all_folders : list str) : report :=
  let t := triage_folders ispokemon all_folders in
  let '(disk1, rename_map, log) :=
    rename_folders (folders_to_rename t) (disk, ∅, []) in
  let updated_folders := map (resolve rename_map) (folders_to_process t) in
  {| disk_after := foldl (process_txt_files tags_to_absorb) disk1 updated_folders;
     printed := log;
     unprocessed := unprocessed_folders t |}.

(** A folder the first loop keeps, with its subject name. *)
Definition candidate (ispokemon : str -> bool) (folder : str) : option str :=
  match extract_pokemon_name folder with
  | Some pokemon_name =>
      if ispokemon (capitalize pokemon_name) then Some pokemon_name else None
  | None => None
  end.

(** The entries one folder adds to [folders_to_process] and to
    [folders_to_rename]. *)
Definition process_entry (ispokemon : str -> bool) (folder : str) : list (str * str) :=
  match candidate ispokemon folder with
  | Some pokemon_name => [(folder, pokemon_name)]
  | None => []
  end.

Definition rename_entry (ispokemon : str -> bool) (folder : str) : list (str * str) :=
  match candidate ispokemon folder with
  | Some pokemon_name =>
      if should_rename_folder folder pokemon_name
      then [(folder, get_standard_folder_name pokemon_name)]
      else []
  | None => []
  end.

(** The state of the rename loop while two folders [f1] and [f2] wait for
    the same free target [T] ... *)
Definition waiting (T f1 f2 : str) (n1 n2 : node)
    (st : gmap str node * gmap str str * list event) : Prop :=
  let '(disk, rename_map, log) := st in
  disk !! T = None /\ disk !! f1 = Some n1 /\ disk !! f2 = Some n2
  /\ rename_map !! f2 = None
  /\ (forall g, rename_map !! g <> Some T)
  /\ (forall g, rename_map !! g <> Some f2).

(** ... and once [f1] has taken it. *)
Definition taken (T f1 f2 : str) (n1 n2 : node)
    (st : gmap str node * gmap str str * list event) : Prop :=
  let '(disk, rename_map, log) := st in
  disk !! T = Some n1 /\ disk !! f2 = Some n2
  /\ rename_map !! f1 = Some T /\ rename_map !! f2 = None
  /\ (forall g, rename_map !! g = Some T -> g = f1)
  /\ (forall g, rename_map !! g <> Some f2)
  /\ Renamed f1 T ∈ log.

(** The absorb set as [main] builds it from the configuration:
    [set(tag.lower().strip() for tag in config.get("tags_to_absorb", []))]. *)
Definition absorb_set (config_tags : list str) : gset str :=
  list_to_set (map (fun tag => strip (lower tag)) config_tags).

(** What one folder adds to the report of the first loop. *)
Definition report_entry (ispokemon : str -> bool) (folder : str) : list (str * reason) :=
  match extract_pokemon_name folder with
  | None => [(folder, UnrecognizedFormat)]
  | Some pokemon_name =>
      if ispokemon (capitalize pokemon_name) then [] else [(folder, NotInDatabase)]
  end.

(** The name a folder has now, after the renames done so far. *)
Definition current_path (rename_map : gmap str str) (folder : str) : str :=
  default folder (rename_map !! folder).

(** The rename loop, whatever it has renamed so far: every entry of the
    directory [disk0] it started from is stored under its current name with
    what it held, two entries never share a name, [rename_map] holds the
    renames done and printed, and no rename has failed. *)
Definition renaming (disk0 : gmap str node) (done : list (str * str))
    (st : gmap str node * gmap str str * list event) : Prop :=
  let '(disk, rename_map, log) := st in
  (forall g v, disk0 !! g = Some v -> disk !! current_path rename_map g = Some v)
  /\ (forall g g', is_Some (disk0 !! g) -> is_Some (disk0 !! g') ->
                   current_path rename_map g = current_path rename_map g' -> g = g')
  /\ (forall g t, rename_map !! g = Some t -> (g, t) ∈ done /\ Renamed g t ∈ log)
  /\ (forall o, RenameError o ∉ log).

(** [rstrip] on the last piece of a split line. *)
Fixpoint rstrip_last (pieces : list str) : list str :=
  match pieces with
  | [] => []
  | p :: rest =>
      match rest with
      | [] => [rstrip p]
      | _ :: _ => p :: rstrip_last rest
      end
  end.

(** The folder a printed line is about. *)
Definition event_folder (e : event) : str :=
  match e with
  | Renamed old_name _ => old_name
  | RenameWarning old_name _ => old_name
  | RenameError old_name => old_name
  end.

(** ** The classifier on strings of code points

    A Python string is a sequence of code points.  With [re.IGNORECASE]
    a character matches the class [[a-zA-Z0-9_-]] when its lower case is
    in the class or is a case variant of a letter of the class, and a
    literal letter of a pattern matches every character with the same
    lower case or a case variant of it.  Outside ASCII this adds four
    characters: U+0130 (capital I with a dot) and U+0131 (dotless i) for
    [i], U+017F (long s) for [s] and U+212A (the Kelvin sign) for [k].
    Without the flag the class and the literals are the ASCII ones. *)

Module Unicode.

Definition of_ascii (s : str) : list N := map N_of_ascii s.

Definition capital_i_dot : N := 304.
Definition dotless_i : N := 305.
Definition long_s : N := 383.
Definition kelvin : N := 8490.
Definition combining_dot : N := 775.
Definition newline : N := 10.

Definition is_upper (c : N) : bool := ((65 <=? c) && (c <=? 90))%N.
Definition is_lower (c : N) : bool := ((97 <=? c) && (c <=? 122))%N.
Definition is_digit (c : N) : bool := ((48 <=? c) && (c <=? 57))%N.

(** The lower case of a character of ASCII. *)
Definition fold (c : N) : N := if is_upper c then (c + 32)%N else c.

(** The class [[a-zA-Z0-9_-]], with and without [re.IGNORECASE]. *)
Definition is_name_char (ignorecase : bool) (c : N) : bool :=
  is_lower c || is_upper c || is_digit c || (c =? 95)%N || (c =? 45)%N
  || (ignorecase
      && ((c =? capital_i_dot) || (c =? dotless_i) || (c =? long_s)
          || (c =? kelvin))%N).

(** One literal pattern character [p], a character of ASCII, against one
    input character. *)
Definition lit_eqb (ignorecase : bool) (p c : N) : bool :=
  if ignorecase then
    ((fold p =? fold c)
     || ((fold p =? 105) && ((c =? capital_i_dot) || (c =? dotless_i)))
     || ((fold p =? 107) && (c =? kelvin))
     || ((fold p =? 115) && (c =? long_s)))%N
  else (p =? c)%N.

Fixpoint match_literal (ignorecase : bool) (pat s : list N) : option (list N) :=
  match pat with
  | [] => Some s
  | p :: pat' =>
      match s with
      | [] => None
      | c :: s' =>
          if lit_eqb ignorecase p c then match_literal ignorecase pat' s'
          else None
      end
  end.

(** [$] *)
Definition at_end (s : list N) : bool :=
  match s with
  | [] => true
  | [c] => (c =? newline)%N
  | _ :: _ :: _ => false
  end.

Definition match_tail (ignorecase : bool) (literal s : list N) : bool :=
  match match_literal ignorecase literal s with
  | Some r => at_end r
  | None => false
  end.

Fixpoint name_run (ignorecase : bool) (s : list N) : nat :=
  match s with
  | [] => 0
  | c :: t => if is_name_char ignorecase c then S (name_run ignorecase t) else 0
  end.

Fixpoint backtrack (ignorecase : bool) (literal s : list N) (k : nat)
    : option (list N) :=
  match k with
  | 0 => None
  | S k' =>
      if match_tail ignorecase literal (drop k s) then Some (take k s)
      else backtrack ignorecase literal s k'
  end.

Definition re_match_name (ignorecase : bool) (literal s : list N)
    : option (list N) :=
  backtrack ignorecase literal s (name_run ignorecase s).

(** [str.lower] on the characters that reach it in [extract_pokemon_name]:
    the characters of the class and the line feed that [$] lets through.
    The lower case of U+0130 is [i] followed by U+0307, the combining dot;
    that of the Kelvin sign is [k]; dotless i and long s are lower case. *)
Definition char_lower (c : N) : list N :=
  if is_upper c then [(c + 32)%N]
  else if (c =? capital_i_dot)%N then [105%N; combining_dot]
  else if (c =? kelvin)%N then [107%N]
  else [c].

Definition lower (s : list N) : list N := concat (map char_lower s).

Fixpoint is_prefix (p s : list N) : bool :=
  match p, s with
  | [], _ => true
  | _ :: _, [] => false
  | a :: p', b :: s' => (a =? b)%N && is_prefix p' s'
  end.

Fixpoint contains (needle hay : list N) : bool :=
  match hay with
  | [] => is_prefix needle []
  | _ :: t => is_prefix needle hay || contains needle t
  end.

Definition extract_pokemon_name (folder_name : list N) : option (list N) :=
  match re_match_name true (of_ascii (str_of "Pokedex_IXL")) folder_name with
  | Some g => Some (lower g)
  | None =>
  match re_match_name true (of_ascii (str_of "_(pokemon)")) folder_name with
  | Some g => Some (lower g)
  | None =>
  match re_match_name true (of_ascii (str_of "_pokemon")) folder_name with
  | Some g => Some (lower g)
  | None =>
  match re_match_name false [] folder_name with
  | Some g =>
      if negb (contains (of_ascii (str_of "pokedex")) (lower folder_name))
         && negb (contains (of_ascii (str_of "(pokemon)")) (lower folder_name))
      then Some (lower g)
      else None
  | None => None
  end end end end.

(** Lower-case letters, digits, underscore and hyphen. *)
Definition is_subject_char (c : N) : bool :=
  is_lower c || is_digit c || (c =? 95)%N || (c =? 45)%N.

End Unicode.

(** * Facts about characters *)

Ltac ascii_cases c := destruct c as [[|] [|] [|] [|] [|] [|] [|] [|]].

Lemma char_lower_idem c : char_lower (char_lower c) = char_lower c.
Proof. ascii_cases c; reflexivity. Qed.

Lemma is_name_char_lower c : is_name_char (char_lower c) = is_name_char c.
Proof. ascii_cases c; reflexivity. Qed.

Lemma is_subject_char_lower c :
  is_name_char c = true -> is_subject_char (char_lower c) = true.
Proof. ascii_cases c; vm_compute; intros; congruence. Qed.

Lemma is_subject_char_name c : is_subject_char c = true -> is_name_char c = true.
Proof. ascii_cases c; vm_compute; intros; congruence. Qed.

Lemma char_lower_subject c : is_subject_char c = true -> char_lower c = c.
Proof. ascii_cases c; vm_compute; intros; congruence. Qed.

Lemma char_lower_upper_subject c :
  is_subject_char c = true -> char_lower (char_upper c) = c.
Proof. ascii_cases c; vm_compute; intros; congruence. Qed.

Lemma is_name_char_upper c :
  is_subject_char c = true -> is_name_char (char_upper c) = true.
Proof. ascii_cases c; vm_compute; intros; congruence. Qed.

Lemma is_space_lower c : is_space (char_lower c) = is_space c.
Proof. ascii_cases c; reflexivity. Qed.

Lemma is_comma_lower c : is_comma (char_lower c) = is_comma c.
Proof. ascii_cases c; reflexivity. Qed.

Lemma is_name_char_newline c : is_name_char c = true -> c <> newline.
Proof. intros H ->. vm_compute in H. congruence. Qed.

Example process_tags_eevee :
  process_tags (str_of "Eevee_(pokemon), cute, Eevee_(pokemon), collar")
               (str_of "eevee") ∅
  = str_of "zzEeveeC1tr0n, cute, collar".
Proof. vm_compute. reflexivity. Qed.

Example extract_examples :
  extract_pokemon_name (str_of "PikachuPokedex_IXL") = Some (str_of "pikachu")
  /\ extract_pokemon_name (str_of "Mr-Mime") = Some (str_of "mr-mime")
  /\ extract_pokemon_name (str_of "pikachu_(Pokemon)") = Some (str_of "pikachu")
  /\ extract_pokemon_name (str_of "a_pokemon") = Some (str_of "a")
  /\ extract_pokemon_name (str_of "Pokedex_IXL") = None
  /\ extract_pokemon_name (str_of "pika chu") = None
  /\ get_standard_folder_name (str_of "mr-mime") = str_of "MrMimePokedex_IXL".
Proof. vm_compute. repeat split; reflexivity. Qed.

(** * Facts about strings *)

Lemma lower_idem s : lower (lower s) = lower s.
Proof.
  unfold lower. rewrite map_map. apply map_ext. intros c. apply char_lower_idem.
Qed.

Lemma lower_app s t : lower (s ++ t) = lower s ++ lower t.
Proof. apply map_app. Qed.

Lemma lower_length s : length (lower s) = length s.
Proof. apply length_map. Qed.

Lemma lower_subject s : forallb is_subject_char s = true -> lower s = s.
Proof.
  induction s as [|c s IH]; simpl; [done|].
  intros [Hc Hs]%andb_prop. by rewrite char_lower_subject, IH.
Qed.

Lemma forallb_name_lower s :
  forallb is_name_char s = true -> forallb is_subject_char (lower s) = true.
Proof.
  induction s as [|c s IH]; simpl; [done|].
  intros [Hc Hs]%andb_prop. by rewrite is_subject_char_lower, IH.
Qed.

Lemma forallb_name_char_lower_eq s t :
  lower s = lower t -> forallb is_name_char s = forallb is_name_char t.
Proof.
  revert t. induction s as [|c s IH]; intros [|d t]; simpl; try done.
  intros [= Hc Hs]. rewrite (IH t Hs). f_equal.
  by rewrite <- is_name_char_lower, Hc, is_name_char_lower.
Qed.

(** * The pattern matcher *)

Lemma name_run_le s : name_run s <= length s.
Proof. induction s as [|c s IH]; simpl; [lia|]. destruct (is_name_char c); simpl; lia. Qed.

Lemma name_run_take s k :
  k <= name_run s -> forallb is_name_char (take k s) = true.
Proof.
  revert k. induction s as [|c s IH]; intros [|k]; simpl; try done.
  destruct (is_name_char c) eqn:Hc; [|lia].
  intros Hk. simpl. apply IH. lia.
Qed.

Lemma name_run_all s : forallb is_name_char s = true -> name_run s = length s.
Proof.
  induction s as [|c s IH]; simpl; [done|].
  intros [-> Hs]%andb_prop. by rewrite IH.
Qed.

Lemma match_literal_length ic pat s r :
  match_literal ic pat s = Some r -> length s = length pat + length r.
Proof.
  revert s. induction pat as [|p pat IH]; intros s; simpl.
  - by intros [= ->].
  - destruct s as [|c s]; [done|]. destruct (lit_eqb ic p c); [|done].
    intros H%IH. simpl. lia.
Qed.

Lemma match_literal_split ic pat s r :
  match_literal ic pat s = Some r ->
  exists m, s = m ++ r /\ length m = length pat
            /\ (if ic then lower m = lower pat else m = pat).
Proof.
  revert s. induction pat as [|p pat IH]; intros s; simpl.
  - intros [= ->]. exists []. by destruct ic.
  - destruct s as [|c s]; [done|].
    destruct (lit_eqb ic p c) eqn:Hpc; [|done].
    intros (m & -> & Hlen & Hm)%IH. exists (c :: m). simpl.
    split; [done|]. split; [by rewrite Hlen|].
    unfold lit_eqb in Hpc. destruct ic; apply bool_decide_eq_true in Hpc.
    + by rewrite Hm, Hpc.
    + by rewrite Hm, Hpc.
Qed.

Lemma match_literal_ci pat m r :
  lower m = lower pat -> match_literal true pat (m ++ r) = Some r.
Proof.
  revert m. induction pat as [|p pat IH]; intros [|c m]; simpl; try done.
  intros [= Hc Hm]. unfold lit_eqb.
  rewrite bool_decide_eq_true_2 by done. by apply IH.
Qed.

Lemma match_tail_short ic literal s :
  length s < length literal -> match_tail ic literal s = false.
Proof.
  intros Hlen. unfold match_tail.
  destruct (match_literal ic literal s) as [r|] eqn:Hm; [|done].
  apply match_literal_length in Hm. lia.
Qed.

Lemma backtrack_Some ic literal s k g :
  backtrack ic literal s k = Some g ->
  exists j, 1 <= j <= k /\ g = take j s
            /\ match_tail ic literal (drop j s) = true.
Proof.
  induction k as [|k IH]; simpl; [done|].
  destruct (match_tail ic literal (drop (S k) s)) eqn:Ht.
  - intros [= <-]. exists (S k). repeat split; [lia|lia|done].
  - intros (j & Hj & Hg & Hm)%IH. exists j. repeat split; [lia|lia|done|done].
Qed.

Lemma backtrack_None ic literal s k :
  backtrack ic literal s k = None ->
  forall j, 1 <= j <= k -> match_tail ic literal (drop j s) = false.
Proof.
  induction k as [|k IH]; simpl; [intros; lia|].
  destruct (match_tail ic literal (drop (S k) s)) eqn:Ht; [done|].
  intros Hb j Hj. destruct (decide (j = S k)) as [->|]; [done|].
  apply IH; [done|lia].
Qed.

Lemma backtrack_found ic literal s k j :
  1 <= j <= k ->
  match_tail ic literal (drop j s) = true ->
  (forall i, j < i <= k -> match_tail ic literal (drop i s) = false) ->
  backtrack ic literal s k = Some (take j s).
Proof.
  induction k as [|k IH]; [lia|]. intros Hj Hm Hlater. simpl.
  destruct (decide (j = S k)) as [->|Hne].
  - by rewrite Hm.
  - rewrite Hlater by lia. apply IH; [lia|done|]. intros i Hi. apply Hlater. lia.
Qed.

(** What a successful match captures: a non-empty group over the class,
    followed by the literal and the end of the string. *)
Lemma re_match_name_Some ic literal s g :
  re_match_name ic literal s = Some g ->
  g <> [] /\ forallb is_name_char g = true
  /\ exists m r, s = g ++ m ++ r /\ length m = length literal
                 /\ (if ic then lower m = lower literal else m = literal)
                 /\ at_end r = true.
Proof.
  unfold re_match_name. intros (j & Hj & -> & Hm)%backtrack_Some.
  pose proof (name_run_le s) as Hle.
  split; [|split].
  - intros Hnil%(f_equal length). rewrite length_take in Hnil. simpl in Hnil. lia.
  - apply name_run_take. lia.
  - unfold match_tail in Hm.
    destruct (match_literal ic literal (drop j s)) as [r|] eqn:Hl; [|done].
    apply match_literal_split in Hl as (m & Hs & Hlen & Hcase).
    exists m, r. rewrite <- Hs, take_drop. done.
Qed.

(** The class excludes the line feed, so on a string over the class a
    match ends the string exactly. *)
Lemma at_end_name_chars r :
  at_end r = true -> forallb is_name_char r = true -> r = [].
Proof.
  unfold at_end. intros [H|H]%orb_prop; apply bool_decide_eq_true in H; [done|].
  subst r. vm_compute. congruence.
Qed.

Lemma re_match_name_shape literal s g :
  forallb is_name_char s = true ->
  re_match_name true literal s = Some g ->
  has_suffix_shape literal s = true.
Proof.
  intros Hs (Hg & Hgc & m & r & -> & Hlen & Hm & Hr)%re_match_name_Some.
  rewrite !forallb_app in Hs.
  apply andb_prop in Hs as [_ [_ Hrc]%andb_prop].
  apply at_end_name_chars in Hr as ->; [|done].
  rewrite app_nil_r. unfold has_suffix_shape.
  rewrite length_app, Hlen.
  replace (length g + length literal - length literal) with (length g) by lia.
  rewrite take_app_length, drop_app_length.
  repeat (apply andb_true_intro; split); [| |done|by apply bool_decide_eq_true].
  - apply Nat.ltb_lt. destruct g; [done|]. simpl. lia.
  - apply Nat.leb_le. lia.
Qed.

(** A string of the shape [<name><literal>] matches, and the group is
    [<name>]. *)
Lemma re_match_name_suffix literal name suf :
  name <> [] ->
  forallb is_name_char name = true ->
  forallb is_name_char literal = true ->
  lower suf = lower literal ->
  re_match_name true literal (name ++ suf) = Some name.
Proof.
  intros Hne Hname Hlit Hsuf. unfold re_match_name.
  assert (length suf = length literal) as Hlen.
  { by rewrite <- (lower_length suf), Hsuf, lower_length. }
  rewrite name_run_all.
  2:{ rewrite forallb_app, Hname. simpl.
      by rewrite (forallb_name_char_lower_eq _ _ Hsuf). }
  replace (Some name) with (Some (take (length name) (name ++ suf)))
    by (by rewrite take_app_length).
  apply backtrack_found.
  - rewrite length_app. destruct name; [done|]. simpl. lia.
  - rewrite drop_app_length. unfold match_tail.
    rewrite <- (app_nil_r suf), match_literal_ci by done. done.
  - intros i Hi. apply match_tail_short.
    rewrite length_drop. rewrite length_app in *. lia.
Qed.

(** * Name Pattern Classifier *)

Lemma lower_group_subject g :
  g <> [] -> forallb is_name_char g = true -> is_subject_name (lower g) = true.
Proof.
  intros Hg Hc. unfold is_subject_name.
  rewrite forallb_name_lower by done. by destruct g.
Qed.

(** Whatever the classifier returns is a subject name. *)
Lemma extract_pokemon_name_subject x n :
  extract_pokemon_name x = Some n -> is_subject_name n = true.
Proof.
  unfold extract_pokemon_name.
  repeat match goal with
  | |- context [re_match_name ?ic ?l x] =>
      let H := fresh "H" in
      destruct (re_match_name ic l x) eqn:H;
      [apply re_match_name_Some in H as (? & ? & _)|]
  end;
  try match goal with
  | |- context [if ?b then _ else _] => destruct b
  end;
  intros [= <-]; by apply lower_group_subject.
Qed.

(** Format 1 on a string of its shape. *)
Lemma extract_pokemon_name_format1 name suf :
  name <> [] ->
  forallb is_name_char name = true ->
  lower suf = lower (str_of "Pokedex_IXL") ->
  extract_pokemon_name (name ++ suf) = Some (lower name).
Proof.
  intros Hne Hname Hsuf. unfold extract_pokemon_name.
  by rewrite re_match_name_suffix.
Qed.

(** C4: a folder name [<name>Pokedex_IXL], the name one or more letters,
    digits, underscores or hyphens and the suffix in any letter case, is
    classified as [<name>] in lower case; [PikachuPokedex_IXL] gives
    [pikachu]. *)
Theorem extract_pokemon_name_pokedex_suffix :
  (forall name suf : str,
      name <> [] ->
      forallb is_name_char name = true ->
      lower suf = lower (str_of "Pokedex_IXL") ->
      extract_pokemon_name (name ++ suf) = Some (lower name))
  /\ extract_pokemon_name (str_of "PikachuPokedex_IXL") = Some (str_of "pikachu").
Proof.
  split; [apply extract_pokemon_name_format1|].
  vm_compute. reflexivity.
Qed.

Lemma extract_pokemon_name_pokedex_suffix_witness :
  extract_pokemon_name (str_of "Mr-Mime" ++ str_of "pokeDEX_ixl")
  = Some (lower (str_of "Mr-Mime")).
Proof.
  apply (proj1 extract_pokemon_name_pokedex_suffix).
  - discriminate.
  - vm_compute. reflexivity.
  - vm_compute. reflexivity.
Defined.

(** C5: a folder name over letters, digits, underscores and hyphens that
    contains [pokedex] in any letter case and has none of the three suffix
    shapes is not recognized: the bare-name pattern does not fire. *)
Theorem extract_pokemon_name_pokedex_substring (x : str) :
  forallb is_name_char x = true ->
  contains (str_of "pokedex") (lower x) = true ->
  has_suffix_shape (str_of "Pokedex_IXL") x = false ->
  has_suffix_shape (str_of "_(pokemon)") x = false ->
  has_suffix_shape (str_of "_pokemon") x = false ->
  extract_pokemon_name x = None.
Proof.
  intros Hx Hsub H1 H2 H3. unfold extract_pokemon_name.
  destruct (re_match_name true (str_of "Pokedex_IXL") x) eqn:E1.
  { apply re_match_name_shape in E1; [congruence|done]. }
  destruct (re_match_name true (str_of "_(pokemon)") x) eqn:E2.
  { apply re_match_name_shape in E2; [congruence|done]. }
  destruct (re_match_name true (str_of "_pokemon") x) eqn:E3.
  { apply re_match_name_shape in E3; [congruence|done]. }
  rewrite Hsub. simpl. by destruct (re_match_name false [] x).
Qed.

Lemma extract_pokemon_name_pokedex_substring_witness :
  extract_pokemon_name (str_of "MyPokedex_backup") = None.
Proof.
  apply extract_pokemon_name_pokedex_substring; vm_compute; reflexivity.
Defined.

(** * Name Canonicalizer *)

Lemma split_on_no_sep sep s :
  forallb (fun c => negb (sep c)) s = true -> split_on sep s = [s].
Proof.
  induction s as [|c s IH]; simpl; [done|].
  intros [Hc Hs]%andb_prop. apply negb_true_iff in Hc. by rewrite Hc, IH.
Qed.

Lemma capitalize_subject n :
  is_subject_name n = true ->
  capitalize n <> [] /\ forallb is_name_char (capitalize n) = true
  /\ lower (capitalize n) = n.
Proof.
  unfold is_subject_name. destruct n as [|c t]; [done|]. simpl.
  intros [Hc Ht]%andb_prop. split; [done|].
  rewrite is_name_char_upper, char_lower_upper_subject by done.
  rewrite lower_idem, (lower_subject t) by done. split; [|done].
  simpl. clear Hc. induction t as [|d t IH]; simpl; [done|].
  simpl in Ht. apply andb_prop in Ht as [Hd Ht].
  rewrite is_subject_char_name by done. by apply IH.
Qed.

(** C2, as the code has it: for an ASCII folder name that is recognized,
    the canonical folder name of its subject name, when that name has no
    underscore and no hyphen, is classified as that subject name. *)
Theorem extract_standard_folder_name_no_sep (x n : str) :
  forallb is_ascii x = true ->
  extract_pokemon_name x = Some n ->
  forallb (fun c => negb (is_sep c)) n = true ->
  extract_pokemon_name (get_standard_folder_name n) = Some n.
Proof.
  intros _ Hx Hsep. apply extract_pokemon_name_subject in Hx.
  apply capitalize_subject in Hx as (Hne & Hc & Hl).
  unfold get_standard_folder_name, capitalized.
  rewrite split_on_no_sep by done. simpl. rewrite app_nil_r.
  rewrite extract_pokemon_name_format1 by done. by rewrite Hl.
Qed.

Lemma extract_standard_folder_name_no_sep_witness :
  extract_pokemon_name (get_standard_folder_name (str_of "pikachu"))
  = Some (str_of "pikachu").
Proof.
  apply (extract_standard_folder_name_no_sep (str_of "Pikachu_(pokemon)"));
    vm_compute; reflexivity.
Defined.

(** C2 fails on the folder name [Mr-Mime]: its subject name is [mr-mime],
    the canonical folder name [MrMimePokedex_IXL] is classified as
    [mrmime]. *)
Lemma extract_standard_folder_name_mr_mime :
  extract_pokemon_name (str_of "Mr-Mime") = Some (str_of "mr-mime")
  /\ extract_pokemon_name (get_standard_folder_name (str_of "mr-mime"))
     = Some (str_of "mrmime")
  /\ str_of "mrmime" <> str_of "mr-mime".
Proof. vm_compute. repeat split; discriminate. Qed.

(** * Trimming and splitting *)

Lemma lstrip_cases s :
  lstrip s = [] \/ exists c t, lstrip s = c :: t /\ is_space c = false.
Proof.
  induction s as [|c s IH]; simpl; [by left|].
  destruct (is_space c) eqn:Hc; [done|]. right. by exists c, s.
Qed.

Lemma rstrip_cons_nonspace c t :
  is_space c = false -> rstrip (c :: t) = c :: rstrip t.
Proof. intros Hc. simpl. rewrite Hc. by destruct (rstrip t). Qed.

Lemma lstrip_cons_nonspace c t : is_space c = false -> lstrip (c :: t) = c :: t.
Proof. intros Hc. simpl. by rewrite Hc. Qed.

Lemma rstrip_idem s : rstrip (rstrip s) = rstrip s.
Proof.
  induction s as [|c s IH]; simpl; [done|].
  destruct (rstrip s) as [|d r] eqn:Hr.
  - destruct (is_space c) eqn:Hc; [done|]. simpl. by rewrite Hc.
  - change (rstrip (c :: d :: r) = c :: d :: r).
    cbn [rstrip]. cbn [rstrip] in IH. by rewrite IH.
Qed.

Lemma strip_idem s : strip (strip s) = strip s.
Proof.
  unfold strip. destruct (lstrip_cases s) as [->|(c & t & -> & Hc)]; [done|].
  rewrite rstrip_cons_nonspace by done.
  rewrite lstrip_cons_nonspace by done.
  rewrite <- rstrip_cons_nonspace by done. apply rstrip_idem.
Qed.

Lemma lstrip_lower s : lstrip (lower s) = lower (lstrip s).
Proof.
  induction s as [|c s IH]; simpl; [done|].
  rewrite is_space_lower. by destruct (is_space c).
Qed.

Lemma rstrip_lower s : rstrip (lower s) = lower (rstrip s).
Proof.
  induction s as [|c s IH]; simpl; [done|].
  fold (lower s). rewrite IH, is_space_lower.
  destruct (rstrip s); simpl; [|done]. by destruct (is_space c).
Qed.

Lemma strip_lower s : strip (lower s) = lower (strip s).
Proof. unfold strip. by rewrite lstrip_lower, rstrip_lower. Qed.

Lemma lstrip_forallb P s : forallb P s = true -> forallb P (lstrip s) = true.
Proof.
  induction s as [|c s IH]; simpl; [done|].
  intros [Hc Hs]%andb_prop. destruct (is_space c); [by apply IH|].
  simpl. by rewrite Hc, Hs.
Qed.

Lemma rstrip_forallb P s : forallb P s = true -> forallb P (rstrip s) = true.
Proof.
  induction s as [|c s IH]; simpl; [done|].
  intros [Hc Hs]%andb_prop. specialize (IH Hs).
  destruct (rstrip s); [destruct (is_space c); simpl; by rewrite ?Hc|].
  simpl. simpl in IH. by rewrite Hc, IH.
Qed.

Lemma strip_forallb P s : forallb P s = true -> forallb P (strip s) = true.
Proof. intros H. unfold strip. by apply rstrip_forallb, lstrip_forallb. Qed.

Lemma rstrip_app_nonspace s c : is_space c = false -> rstrip (s ++ [c]) = s ++ [c].
Proof.
  intros Hc. induction s as [|d s IH]; simpl; [by rewrite Hc|].
  rewrite IH. by destruct s.
Qed.

Lemma split_on_nonempty sep s : split_on sep s <> [].
Proof.
  destruct s as [|c s]; simpl; [done|].
  destruct (sep c); [done|]. by destruct (split_on sep s).
Qed.

Lemma split_on_app_sep sep a c b :
  sep c = true -> split_on sep (a ++ c :: b) = split_on sep a ++ split_on sep b.
Proof.
  intros Hc. induction a as [|x a IH]; simpl; [by rewrite Hc|].
  rewrite IH. destruct (sep x); [done|].
  pose proof (split_on_nonempty sep a). by destruct (split_on sep a).
Qed.

Lemma split_on_pieces sep s :
  Forall (fun p => forallb (fun c => negb (sep c)) p = true) (split_on sep s).
Proof.
  induction s as [|c s IH]; simpl; [by repeat constructor|].
  destruct (sep c) eqn:Hc; [by constructor|].
  destruct (split_on sep s) as [|p ps]; [by repeat constructor; simpl; rewrite Hc|].
  inversion IH; subst. constructor; [|done]. simpl. by rewrite Hc.
Qed.

Lemma split_on_forallb P sep s :
  forallb P s = true -> Forall (fun p => forallb P p = true) (split_on sep s).
Proof.
  induction s as [|c s IH]; simpl; [by repeat constructor|].
  intros [Hc Hs]%andb_prop. specialize (IH Hs).
  destruct (sep c); [by constructor|].
  destruct (split_on sep s) as [|p ps]; [by repeat constructor; simpl; rewrite Hc|].
  inversion IH; subst. constructor; [|done]. simpl. by rewrite Hc.
Qed.

(** * Removing duplicates *)

Lemma foldl_dedup_step tags seen unique_tags :
  foldl dedup_step (seen, unique_tags) tags
  = (seen ∪ list_to_set tags, unique_tags ++ dedup_from seen tags).
Proof.
  revert seen unique_tags.
  induction tags as [|tag rest IH]; intros seen unique_tags; simpl.
  - by rewrite app_nil_r, union_empty_r_L.
  - destruct (decide (tag ∈ seen)) as [Hin|Hnin]; rewrite IH; f_equal.
    + set_solver.
    + set_solver.
    + by rewrite <- app_assoc.
Qed.

Lemma dedup_eq tags : dedup tags = dedup_from ∅ tags.
Proof. unfold dedup. by rewrite foldl_dedup_step. Qed.

Lemma elem_of_dedup_from x seen l :
  x ∈ dedup_from seen l <-> x ∈ l /\ x ∉ seen.
Proof.
  revert seen. induction l as [|a l IH]; intros seen; simpl.
  - set_solver.
  - destruct (decide (a ∈ seen)).
    + rewrite IH. set_solver.
    + rewrite !elem_of_cons, IH.
      destruct (decide (x = a)) as [->|Hne]; [naive_solver|set_solver].
Qed.

Lemma NoDup_dedup_from seen l : NoDup (dedup_from seen l).
Proof.
  revert seen. induction l as [|a l IH]; intros seen; simpl.
  - constructor.
  - destruct (decide (a ∈ seen)); [done|].
    apply NoDup_cons. split; [|done]. rewrite elem_of_dedup_from. set_solver.
Qed.

Lemma dedup_from_NoDup seen l :
  NoDup l -> (forall x, x ∈ l -> x ∉ seen) -> dedup_from seen l = l.
Proof.
  revert seen. induction l as [|a l IH]; intros seen Hnd Hseen; simpl; [done|].
  apply NoDup_cons in Hnd as [Ha Hnd].
  destruct (decide (a ∈ seen)) as [Hin|_].
  { exfalso. apply (Hseen a); [left|done]. }
  f_equal. apply IH; [done|]. intros x Hx.
  specialize (Hseen x (list_elem_of_further _ _ _ Hx)). set_solver.
Qed.

Lemma dedup_from_all_seen seen l :
  (forall x, x ∈ l -> x ∈ seen) -> dedup_from seen l = [].
Proof.
  induction l as [|a l IH]; intros Hseen; simpl; [done|].
  destruct (decide (a ∈ seen)) as [_|Hnin].
  - apply IH. intros x Hx. apply Hseen. by right.
  - exfalso. apply Hnin, Hseen. left.
Qed.

Lemma dedup_from_app seen a b :
  dedup_from seen (a ++ b)
  = dedup_from seen a ++ dedup_from (seen ∪ list_to_set a) b.
Proof.
  revert seen. induction a as [|x a IH]; intros seen; simpl.
  - by rewrite union_empty_r_L.
  - destruct (decide (x ∈ seen)) as [Hin|Hnin]; rewrite IH; simpl.
    + replace (seen ∪ ({[x]} ∪ list_to_set a)) with (seen ∪ list_to_set a :> gset str)
        by set_solver.
      done.
    + replace (seen ∪ ({[x]} ∪ list_to_set a))
        with ({[x]} ∪ seen ∪ list_to_set a :> gset str) by set_solver.
      done.
Qed.

Lemma dedup_app_dedup a b : dedup (a ++ dedup (a ++ b)) = dedup (a ++ b).
Proof.
  rewrite !dedup_eq, (dedup_from_app ∅ a b), !dedup_from_app.
  rewrite !union_empty_l_L.
  rewrite (dedup_from_all_seen _ (dedup_from ∅ a)).
  2:{ intros x [Hx _]%elem_of_dedup_from. by apply elem_of_list_to_set. }
  simpl. f_equal. apply dedup_from_NoDup; [apply NoDup_dedup_from|].
  intros x [Hx Hn]%elem_of_dedup_from.
  intros [H|H]%elem_of_union; [done|].
  apply elem_of_list_to_set, elem_of_dedup_from in H as [H _].
  by apply Hn, elem_of_list_to_set.
Qed.

Lemma dedup_NoDup l : NoDup l -> dedup l = l.
Proof. intros H. rewrite dedup_eq. apply dedup_from_NoDup; [done|set_solver]. Qed.

Lemma NoDup_dedup l : NoDup (dedup l).
Proof. rewrite dedup_eq. apply NoDup_dedup_from. Qed.

Lemma elem_of_dedup x l : x ∈ dedup l <-> x ∈ l.
Proof. rewrite dedup_eq, elem_of_dedup_from. set_solver. Qed.

(** * The three filters *)

Lemma elem_of_keep_tags name absorb l x :
  x ∈ keep_tags name absorb l <-> x ∈ l /\ kept name absorb x.
Proof.
  unfold keep_tags, kept. rewrite !list_elem_of_filter. naive_solver.
Qed.

Lemma keep_tags_app name absorb a b :
  keep_tags name absorb (a ++ b) = keep_tags name absorb a ++ keep_tags name absorb b.
Proof. unfold keep_tags. by rewrite !filter_app. Qed.

Lemma keep_tags_id name absorb l :
  (forall x, x ∈ l -> kept name absorb x) -> keep_tags name absorb l = l.
Proof.
  induction l as [|a l IH]; intros H; [done|].
  destruct (H a) as (H1 & H2 & H3); [left|].
  unfold keep_tags in *.
  rewrite (filter_cons_True _ a), (filter_cons_True _ a), (filter_cons_True _ a) by done.
  f_equal. apply IH. intros x Hx. apply H. by right.
Qed.

Lemma elem_of_clean_tags name absorb l x :
  x ∈ clean_tags name absorb l <-> x ∈ l /\ kept name absorb x.
Proof. unfold clean_tags. by rewrite elem_of_dedup, elem_of_keep_tags. Qed.

Lemma keep_tags_clean name absorb l :
  keep_tags name absorb (clean_tags name absorb l) = clean_tags name absorb l.
Proof. apply keep_tags_id. by intros x [_ H]%elem_of_clean_tags. Qed.

Lemma clean_tags_app_clean name absorb a b :
  clean_tags name absorb (a ++ clean_tags name absorb (a ++ b))
  = clean_tags name absorb (a ++ b).
Proof.
  unfold clean_tags at 1. rewrite keep_tags_app, keep_tags_clean.
  unfold clean_tags. rewrite keep_tags_app. apply dedup_app_dedup.
Qed.

Lemma clean_tags_idem name absorb l :
  clean_tags name absorb (clean_tags name absorb l) = clean_tags name absorb l.
Proof. apply (clean_tags_app_clean name absorb [] l). Qed.

Lemma NoDup_clean_tags name absorb l : NoDup (clean_tags name absorb l).
Proof. apply NoDup_dedup. Qed.

(** * Splitting a joined tag line *)

Lemma process_tags_stages s name absorb :
  process_tags s name absorb
  = join (str_of ", ") (final_tags name (clean_tags name absorb (tag_pieces s))).
Proof. reflexivity. Qed.

Lemma tag_pieces_app_comma a b :
  tag_pieces (a ++ ","%char :: b) = tag_pieces a ++ tag_pieces b.
Proof. unfold tag_pieces. rewrite split_on_app_sep by done. apply map_app. Qed.

Lemma tag_pieces_space b : tag_pieces (" "%char :: b) = tag_pieces b.
Proof.
  unfold tag_pieces. cbn [split_on].
  change (is_comma " "%char) with false. cbv iota.
  pose proof (split_on_nonempty is_comma b) as Hne.
  destruct (split_on is_comma b) as [|p ps]; [done|]. reflexivity.
Qed.

Lemma join_cons2 sep x y l :
  join sep (x :: y :: l) = x ++ sep ++ join sep (y :: l).
Proof. reflexivity. Qed.

Lemma tag_pieces_join l :
  l <> [] -> tag_pieces (join (str_of ", ") l) = concat (map tag_pieces l).
Proof.
  induction l as [|x l IH]; [done|]. intros _.
  destruct l as [|y l].
  - simpl. by rewrite app_nil_r.
  - rewrite join_cons2.
    change (str_of ", " ++ join (str_of ", ") (y :: l))
      with (","%char :: " "%char :: join (str_of ", ") (y :: l)).
    rewrite tag_pieces_app_comma, tag_pieces_space, IH by done. reflexivity.
Qed.

Lemma no_comma_lower s : no_comma (lower s) = no_comma s.
Proof.
  unfold no_comma. induction s as [|c s IH]; simpl; [done|].
  by rewrite is_comma_lower, IH.
Qed.

Lemma tag_pieces_no_comma t : no_comma t = true -> tag_pieces t = [lower (strip t)].
Proof. intros H. unfold tag_pieces. by rewrite split_on_no_sep. Qed.

(** Every piece of a tag line is a lower-case, trimmed, comma-free tag. *)
Lemma piece_atom p :
  no_comma p = true ->
  let t := lower (strip p) in
  no_comma t = true /\ lower t = t /\ is_atom t.
Proof.
  intros Hp t. subst t.
  assert (no_comma (lower (strip p)) = true) as Hnc.
  { rewrite no_comma_lower. by apply strip_forallb. }
  split; [done|]. split; [apply lower_idem|].
  unfold is_atom. rewrite tag_pieces_no_comma by done.
  by rewrite strip_lower, lower_idem, strip_idem.
Qed.

Lemma tag_pieces_atoms s t :
  t ∈ tag_pieces s -> no_comma t = true /\ lower t = t /\ is_atom t.
Proof.
  unfold tag_pieces. intros Ht. apply list_elem_of_In, in_map_iff in Ht.
  destruct Ht as (p & <- & Hp). apply piece_atom.
  pose proof (split_on_pieces is_comma s) as Hall.
  rewrite Forall_forall in Hall. by apply Hall, list_elem_of_In.
Qed.

Lemma concat_map_atoms l :
  (forall t, t ∈ l -> is_atom t) -> concat (map tag_pieces l) = l.
Proof.
  induction l as [|x l IH]; intros H; simpl; [done|].
  rewrite (H x) by left. simpl. f_equal. apply IH. intros t Ht. apply H. by right.
Qed.

Lemma tag_pieces_join_atoms l :
  l <> [] -> (forall t, t ∈ l -> is_atom t) ->
  tag_pieces (join (str_of ", ") l) = l.
Proof. intros Hne Hat. by rewrite tag_pieces_join, concat_map_atoms. Qed.

Lemma clean_tags_atoms name absorb s t :
  t ∈ clean_tags name absorb (tag_pieces s) ->
  no_comma t = true /\ lower t = t /\ is_atom t.
Proof. intros [Ht _]%elem_of_clean_tags. by apply tag_pieces_atoms in Ht. Qed.

(** * The trigger tag *)

Lemma existsb_trigger name u :
  existsb (fun tag => bool_decide (tag = lower (trigger_tag name))) u = true
  <-> lower (trigger_tag name) ∈ u.
Proof.
  rewrite existsb_exists. split.
  - intros (x & Hx & Heq). apply bool_decide_eq_true in Heq. subst.
    by apply list_elem_of_In.
  - intros H. exists (lower (trigger_tag name)).
    split; [by apply list_elem_of_In|by apply bool_decide_eq_true].
Qed.

Lemma final_tags_present name u :
  lower (trigger_tag name) ∈ u -> final_tags name u = u.
Proof. intros H%existsb_trigger. unfold final_tags. by rewrite H. Qed.

Lemma final_tags_absent name u :
  lower (trigger_tag name) ∉ u -> final_tags name u = trigger_tag name :: u.
Proof.
  intros H. unfold final_tags.
  destruct (existsb _ u) eqn:E; [|done]. by apply existsb_trigger in E.
Qed.

(** A tag line whose tags are clean and hold the lower-case trigger is
    left as it is. *)
Lemma process_tags_fixed_present name absorb u :
  (forall t, t ∈ u -> is_atom t) ->
  clean_tags name absorb u = u ->
  lower (trigger_tag name) ∈ u ->
  process_tags (join (str_of ", ") u) name absorb = join (str_of ", ") u.
Proof.
  intros Hat Hclean Hin. rewrite process_tags_stages.
  rewrite tag_pieces_join_atoms; [|by intros ->; inversion Hin|done].
  by rewrite Hclean, final_tags_present.
Qed.

(** A tag line that starts with the trigger and goes on with tags that
    are clean even after the pieces of the trigger is left as it is. *)
Lemma process_tags_fixed_absent name absorb u :
  (forall t, t ∈ u -> is_atom t) ->
  clean_tags name absorb (tag_pieces (trigger_tag name) ++ u) = u ->
  lower (trigger_tag name) ∉ u ->
  process_tags (join (str_of ", ") (trigger_tag name :: u)) name absorb
  = join (str_of ", ") (trigger_tag name :: u).
Proof.
  intros Hat Hclean Hnin. rewrite process_tags_stages.
  rewrite tag_pieces_join by done. cbn [map concat].
  rewrite concat_map_atoms by done.
  by rewrite Hclean, final_tags_absent.
Qed.

(** C10: [process_tags] is stable from its second application on. *)
Theorem process_tags_stable_after_two (s name : str) (absorb : gset str) :
  process_tags (process_tags (process_tags s name absorb) name absorb) name absorb
  = process_tags (process_tags s name absorb) name absorb.
Proof.
  rewrite (process_tags_stages s).
  set (u := clean_tags name absorb (tag_pieces s)).
  assert (forall t, t ∈ u -> is_atom t) as Hat.
  { intros t Ht. by apply clean_tags_atoms in Ht as (_ & _ & ?). }
  destruct (decide (lower (trigger_tag name) ∈ u)) as [Hin|Hnin].
  - rewrite final_tags_present by done.
    rewrite !process_tags_fixed_present; try done; apply clean_tags_idem.
  - rewrite final_tags_absent by done.
    rewrite (process_tags_stages (join _ _)).
    rewrite tag_pieces_join by done. cbn [map concat].
    rewrite concat_map_atoms by done.
    set (tp := tag_pieces (trigger_tag name)).
    set (u2 := clean_tags name absorb (tp ++ u)).
    assert (forall t, t ∈ u2 -> is_atom t) as Hat2.
    { intros t [Ht _]%elem_of_clean_tags.
      apply elem_of_app in Ht as [Ht|Ht]; [|by apply Hat].
      by apply tag_pieces_atoms in Ht as (_ & _ & ?). }
    destruct (decide (lower (trigger_tag name) ∈ u2)) as [Hin2|Hnin2].
    + rewrite final_tags_present by done.
      apply process_tags_fixed_present; [done|apply clean_tags_idem|done].
    + rewrite final_tags_absent by done.
      apply process_tags_fixed_absent; [done| |done].
      apply clean_tags_app_clean.
Qed.

Lemma trigger_tag_snoc name :
  exists body, trigger_tag name = "z"%char :: body ++ ["n"%char].
Proof.
  exists ("z"%char :: capitalized name ++ str_of "C1tr0").
  unfold trigger_tag. cbn [str_of list_ascii_of_string app].
  by rewrite <- app_assoc.
Qed.

Lemma pokemon_tag_snoc name :
  exists body, pokemon_tag name = body ++ [")"%char].
Proof.
  exists (name ++ str_of "_(pokemon"). unfold pokemon_tag.
  by rewrite <- app_assoc.
Qed.

Lemma trigger_tag_nonempty name : trigger_tag name <> [].
Proof. by destruct (trigger_tag_snoc name) as [body ->]. Qed.

Lemma trigger_tag_not_pokemon_tag name : trigger_tag name <> pokemon_tag name.
Proof.
  destruct (trigger_tag_snoc name) as [b1 ->].
  destruct (pokemon_tag_snoc name) as [b2 ->].
  rewrite app_comm_cons. by intros [_ [=]]%app_inj_2.
Qed.

Lemma lower_trigger_tag_not_pokemon_tag name :
  lower (trigger_tag name) <> pokemon_tag name.
Proof.
  destruct (trigger_tag_snoc name) as [b1 ->].
  destruct (pokemon_tag_snoc name) as [b2 ->].
  rewrite app_comm_cons, lower_app. by intros [_ [=]]%app_inj_2.
Qed.

Lemma trigger_tag_mixed_case name : lower (trigger_tag name) <> trigger_tag name.
Proof.
  unfold trigger_tag. rewrite !app_assoc, lower_app.
  by intros [_ [=]]%app_inj_2.
Qed.

Lemma strip_trigger_tag name : strip (trigger_tag name) = trigger_tag name.
Proof.
  destruct (trigger_tag_snoc name) as [body ->]. unfold strip.
  rewrite lstrip_cons_nonspace by done.
  rewrite app_comm_cons. by apply rstrip_app_nonspace.
Qed.

Lemma is_comma_upper c : is_comma (char_upper c) = is_comma c.
Proof. ascii_cases c; reflexivity. Qed.

Lemma no_comma_app a b : no_comma (a ++ b) = no_comma a && no_comma b.
Proof. apply forallb_app. Qed.

Lemma no_comma_capitalize p : no_comma p = true -> no_comma (capitalize p) = true.
Proof.
  destruct p as [|c p]; [done|]. unfold no_comma. simpl.
  intros [Hc Hp]%andb_prop. rewrite is_comma_upper, Hc. simpl.
  fold (no_comma (lower p)). by rewrite no_comma_lower.
Qed.

Lemma no_comma_capitalized name :
  no_comma name = true -> no_comma (capitalized name) = true.
Proof.
  intros H. unfold capitalized.
  pose proof (split_on_forallb _ is_sep name H) as Hall.
  induction Hall as [|p ps Hp _ IH]; [done|]. simpl.
  by rewrite no_comma_app, IH, (no_comma_capitalize p Hp).
Qed.

Lemma subject_char_no_comma c : is_subject_char c = true -> negb (is_comma c) = true.
Proof. ascii_cases c; vm_compute; intros; congruence. Qed.

Lemma subject_name_no_comma name :
  is_subject_name name = true -> no_comma name = true.
Proof.
  unfold is_subject_name, no_comma. intros [_ H]%andb_prop.
  induction name as [|c n IH]; [done|]. simpl in *.
  apply andb_prop in H as [Hc Hn]. by rewrite subject_char_no_comma, IH.
Qed.

Lemma no_comma_trigger_tag name :
  no_comma name = true -> no_comma (trigger_tag name) = true.
Proof.
  intros H. unfold trigger_tag.
  by rewrite !no_comma_app, no_comma_capitalized.
Qed.

Lemma tag_pieces_trigger_tag name :
  no_comma name = true ->
  tag_pieces (trigger_tag name) = [lower (trigger_tag name)].
Proof.
  intros H. rewrite tag_pieces_no_comma by by apply no_comma_trigger_tag.
  by rewrite strip_trigger_tag.
Qed.

Lemma lower_join sep l : lower (join sep l) = join (lower sep) (map lower l).
Proof.
  induction l as [|x l IH]; [done|]. destruct l as [|y l]; [done|].
  rewrite join_cons2, !lower_app, IH. reflexivity.
Qed.

Lemma map_lower_clean name absorb s :
  map lower (clean_tags name absorb (tag_pieces s))
  = clean_tags name absorb (tag_pieces s).
Proof.
  assert (forall l : list str, (forall t, t ∈ l -> lower t = t) -> map lower l = l) as Hmap.
  { induction l as [|x l IH]; intros H; simpl; [done|].
    rewrite (H x) by left. f_equal. apply IH. intros t Ht. apply H. by right. }
  apply Hmap. intros t Ht. by apply clean_tags_atoms in Ht as (_ & ? & _).
Qed.

Lemma keep_tags_absorbed name absorb x :
  x ∈ absorb -> keep_tags name absorb [x] = [].
Proof.
  intros Hx. destruct (keep_tags name absorb [x]) as [|y l] eqn:E; [done|].
  assert (y ∈ keep_tags name absorb [x]) as Hy by (rewrite E; left).
  apply elem_of_keep_tags in Hy as [Hy (_ & _ & Hn)].
  apply list_elem_of_singleton in Hy. by subst.
Qed.

(** * Tag Processor *)

Lemma join_nonempty sep x l : x <> [] -> join sep (x :: l) <> [].
Proof. intros Hx. destruct l; simpl; [done|]. by destruct x. Qed.

Lemma filter_nonempty_blank (l : list str) :
  forallb (fun p => negb (nonempty (strip p))) l = true ->
  filter (fun tag => nonempty tag = true) (map (fun tag => lower (strip tag)) l) = [].
Proof.
  induction l as [|p l IH]; simpl; [done|].
  intros [Hp Hl]%andb_prop. apply negb_true_iff in Hp.
  rewrite filter_cons_False; [by apply IH|].
  destruct (strip p); [done|discriminate].
Qed.

(** C8: a tag line whose pieces are all empty once trimmed gives exactly
    the trigger tag [zz<Capitalized>C1tr0n], and no tag line gives the
    empty string. *)
Theorem process_tags_blank_line :
  (forall (s name : str) (absorb : gset str),
      forallb (fun p => negb (nonempty (strip p))) (split_on is_comma s) = true ->
      process_tags s name absorb
      = str_of "zz" ++ capitalized name ++ str_of "C1tr0n")
  /\ (forall (s name : str) (absorb : gset str), process_tags s name absorb <> []).
Proof.
  split.
  - intros s name absorb Hblank. rewrite process_tags_stages.
    unfold clean_tags, keep_tags, tag_pieces.
    rewrite filter_nonempty_blank by done. reflexivity.
  - intros s name absorb. rewrite process_tags_stages.
    set (u := clean_tags name absorb (tag_pieces s)).
    destruct (decide (lower (trigger_tag name) ∈ u)) as [Hin|Hnin].
    + rewrite final_tags_present by done.
      destruct u as [|x l] eqn:Hu; [by inversion Hin|].
      apply join_nonempty.
      assert (x ∈ u) as Hx by (rewrite Hu; left).
      apply elem_of_clean_tags in Hx as [_ (Hne & _)]. by destruct x.
    + rewrite final_tags_absent by done.
      apply join_nonempty, trigger_tag_nonempty.
Qed.

Lemma process_tags_blank_line_witness :
  process_tags (str_of " , ,, ") (str_of "mr_mime") ∅
  = str_of "zz" ++ capitalized (str_of "mr_mime") ++ str_of "C1tr0n".
Proof.
  apply (proj1 process_tags_blank_line). vm_compute. reflexivity.
Defined.

(** C1 fails on the tag line [cute] of the subject [pikachu]: the first
    pass gives [zzPikachuC1tr0n, cute], the second one lowers the trigger
    and gives [zzpikachuc1tr0n, cute]. *)
Lemma process_tags_not_idempotent :
  process_tags (str_of "cute") (str_of "pikachu") ∅
  = str_of "zzPikachuC1tr0n, cute"
  /\ process_tags (process_tags (str_of "cute") (str_of "pikachu") ∅)
       (str_of "pikachu") ∅
     = str_of "zzpikachuc1tr0n, cute"
  /\ process_tags (process_tags (str_of "cute") (str_of "pikachu") ∅)
       (str_of "pikachu") ∅
     <> process_tags (str_of "cute") (str_of "pikachu") ∅.
Proof. vm_compute. repeat split; discriminate. Qed.

(** C1, as the code has it: for a subject name, processing the output
    again gives the same tag line up to the case of its letters. *)
Theorem process_tags_idempotent_up_to_case (s name : str) (absorb : gset str) :
  is_subject_name name = true ->
  lower (process_tags (process_tags s name absorb) name absorb)
  = lower (process_tags s name absorb).
Proof.
  intros Hname%subject_name_no_comma. rewrite (process_tags_stages s).
  pose proof (map_lower_clean name absorb s) as Hlow.
  pose proof (keep_tags_clean name absorb (tag_pieces s)) as Hkeep.
  pose proof (NoDup_clean_tags name absorb (tag_pieces s)) as Hnd.
  assert (forall t, t ∈ clean_tags name absorb (tag_pieces s) -> is_atom t) as Hat.
  { intros t Ht. by apply clean_tags_atoms in Ht as (_ & _ & ?). }
  revert Hlow Hkeep Hnd Hat.
  generalize (clean_tags name absorb (tag_pieces s)). intros u Hlow Hkeep Hnd Hat.
  destruct (decide (lower (trigger_tag name) ∈ u)) as [Hin|Hnin].
  - rewrite final_tags_present by done.
    rewrite process_tags_fixed_present; [done|done| |done].
    unfold clean_tags. by rewrite Hkeep, dedup_NoDup.
  - rewrite final_tags_absent by done.
    rewrite (process_tags_stages (join _ _)).
    rewrite tag_pieces_join by done. cbn [map concat].
    rewrite concat_map_atoms, tag_pieces_trigger_tag by done.
    unfold clean_tags. rewrite keep_tags_app, Hkeep.
    destruct (decide (lower (trigger_tag name) ∈ absorb)) as [Habs|Hnabs].
    + rewrite keep_tags_absorbed by done. cbn [app].
      by rewrite dedup_NoDup, final_tags_absent.
    + rewrite keep_tags_id.
      2:{ intros t ->%list_elem_of_singleton. split; [|split; [|done]].
          - destruct (trigger_tag_snoc name) as [body ->]. done.
          - apply lower_trigger_tag_not_pokemon_tag. }
      cbn [app]. rewrite dedup_NoDup by (by apply NoDup_cons).
      rewrite final_tags_present by left.
      rewrite !lower_join. cbn [map]. by rewrite lower_idem.
Qed.

Lemma process_tags_idempotent_up_to_case_witness :
  lower (process_tags (process_tags (str_of "cute") (str_of "pikachu") ∅)
           (str_of "pikachu") ∅)
  = lower (process_tags (str_of "cute") (str_of "pikachu") ∅).
Proof.
  apply process_tags_idempotent_up_to_case. vm_compute. reflexivity.
Defined.

(** * The tag sequence of an output line *)

Lemma split_comma_space_no_comma x :
  no_comma x = true -> split_comma_space x = [x].
Proof.
  induction x as [|c x IH]; [done|]. unfold no_comma in *. simpl.
  intros [Hc Hx]%andb_prop. apply negb_true_iff in Hc.
  destruct x as [|d x]; [done|]. rewrite Hc. cbn [andb].
  by rewrite (IH Hx).
Qed.

Lemma split_comma_space_app x rest :
  no_comma x = true ->
  split_comma_space (x ++ ","%char :: " "%char :: rest)
  = x :: split_comma_space rest.
Proof.
  induction x as [|c x IH]; [done|]. unfold no_comma in *. simpl.
  intros [Hc Hx]%andb_prop. apply negb_true_iff in Hc.
  specialize (IH Hx).
  destruct (x ++ ","%char :: " "%char :: rest) as [|d t] eqn:E.
  { by destruct x. }
  rewrite Hc. cbn [andb]. by rewrite IH.
Qed.

Lemma split_comma_space_join l :
  l <> [] -> (forall t, t ∈ l -> no_comma t = true) ->
  split_comma_space (join (str_of ", ") l) = l.
Proof.
  induction l as [|x l IH]; [done|]. intros _ Hnc.
  destruct l as [|y l].
  - apply split_comma_space_no_comma, Hnc. left.
  - rewrite join_cons2.
    change (str_of ", " ++ join (str_of ", ") (y :: l))
      with (","%char :: " "%char :: join (str_of ", ") (y :: l)).
    rewrite split_comma_space_app by (apply Hnc; left).
    f_equal. apply IH; [done|]. intros t Ht. apply Hnc. by right.
Qed.

(** C3: for a subject name and an absorb set of lower-case strings, the
    tags of the output line, split on comma and space, hold no empty tag,
    no two tags equal up to case, not the tag [<name>_(pokemon)] and no
    tag of the absorb set; either the line starts with the trigger tag and
    no later tag equals it up to case, or the lower-case trigger was among
    the tags of the input and stays where it was. *)
Theorem process_tags_invariant (s name : str) (absorb : gset str) :
  is_subject_name name = true ->
  (forall t, t ∈ absorb -> lower t = t) ->
  let entries := split_comma_space (process_tags s name absorb) in
  Forall (fun e => e <> []) entries
  /\ NoDup (map lower entries)
  /\ pokemon_tag name ∉ entries
  /\ Forall (fun e => e ∉ absorb) entries
  /\ ((exists rest, entries = trigger_tag name :: rest
                    /\ Forall (fun e => lower e <> lower (trigger_tag name)) rest)
      \/ lower (trigger_tag name) ∈ entries).
Proof.
  intros Hname%subject_name_no_comma Habs entries. subst entries.
  rewrite process_tags_stages.
  pose proof (map_lower_clean name absorb s) as Hlow.
  pose proof (NoDup_clean_tags name absorb (tag_pieces s)) as Hnd.
  assert (forall t, t ∈ clean_tags name absorb (tag_pieces s) ->
                    no_comma t = true /\ lower t = t /\ kept name absorb t) as Hu.
  { intros t Ht. pose proof Ht as (Hnc & Hl & _)%clean_tags_atoms.
    by apply elem_of_clean_tags in Ht as [_ Hk]. }
  revert Hlow Hnd Hu.
  generalize (clean_tags name absorb (tag_pieces s)). intros u Hlow Hnd Hu.
  destruct (decide (lower (trigger_tag name) ∈ u)) as [Hin|Hnin].
  - rewrite final_tags_present by done.
    rewrite split_comma_space_join;
      [|by intros ->; inversion Hin|by intros t (? & _)%Hu].
    repeat split.
    + apply Forall_forall. intros t (_ & _ & Hne & _)%Hu. by destruct t.
    + by rewrite Hlow.
    + by intros (_ & _ & _ & Hp & _)%Hu.
    + apply Forall_forall. by intros t (_ & _ & _ & _ & Ha)%Hu.
    + by right.
  - rewrite final_tags_absent by done.
    rewrite split_comma_space_join; [|done|].
    2:{ intros t [->|Ht]%elem_of_cons; [by apply no_comma_trigger_tag|].
        by apply Hu in Ht as (? & _). }
    repeat split.
    + apply Forall_cons. split; [apply trigger_tag_nonempty|].
      apply Forall_forall. intros t (_ & _ & Hne & _)%Hu. by destruct t.
    + cbn [map]. rewrite Hlow. by apply NoDup_cons.
    + intros [Heq|Hp]%elem_of_cons.
      * by apply (trigger_tag_not_pokemon_tag name).
      * by apply Hu in Hp as (_ & _ & _ & Hp & _).
    + apply Forall_cons. split.
      * intros Hl%Habs. by apply (trigger_tag_mixed_case name).
      * apply Forall_forall. by intros t (_ & _ & _ & _ & Ha)%Hu.
    + left. exists u. split; [done|].
      apply Forall_forall. intros t Ht. pose proof Ht as (_ & Hl & _)%Hu.
      rewrite Hl. by intros ->.
Qed.

Lemma process_tags_invariant_witness :
  let entries :=
    split_comma_space
      (process_tags (str_of "Cute, pikachu_(pokemon), 1girl, cute,,solo")
         (str_of "pikachu") {[ str_of "1girl" ]}) in
  Forall (fun e => e <> []) entries
  /\ NoDup (map lower entries)
  /\ pokemon_tag (str_of "pikachu") ∉ entries
  /\ Forall (fun e => e ∉ ({[ str_of "1girl" ]} : gset str)) entries
  /\ ((exists rest, entries = trigger_tag (str_of "pikachu") :: rest
                    /\ Forall (fun e => lower e <> lower (trigger_tag (str_of "pikachu"))) rest)
      \/ lower (trigger_tag (str_of "pikachu")) ∈ entries).
Proof.
  apply process_tags_invariant.
  - vm_compute. reflexivity.
  - intros t Ht. apply elem_of_singleton in Ht. subst t. vm_compute. reflexivity.
Defined.

Example process_tags_witness_line :
  process_tags (str_of "Cute, pikachu_(pokemon), 1girl, cute,,solo")
    (str_of "pikachu") {[ str_of "1girl" ]}
  = str_of "zzPikachuC1tr0n, cute, solo".
Proof. vm_compute. reflexivity. Qed.

(** * Folder Orchestrator: the first loop *)

Section triage.
Variable ispokemon : str -> bool.

Lemma triage_step_lists t folder :
  folders_to_process (triage_step ispokemon t folder)
  = folders_to_process t ++ process_entry ispokemon folder
  /\ folders_to_rename (triage_step ispokemon t folder)
     = folders_to_rename t ++ rename_entry ispokemon folder
  /\ queries (triage_step ispokemon t folder)
     = queries t ++ from_option (fun n => [capitalize n]) []
                      (extract_pokemon_name folder).
Proof.
  unfold triage_step, process_entry, rename_entry, candidate, call_ispokemon.
  destruct (extract_pokemon_name folder) as [n|]; simpl.
  - destruct (ispokemon (capitalize n)); simpl.
    + by destruct (should_rename_folder folder n); rewrite ?app_nil_r.
    + by rewrite !app_nil_r.
  - by rewrite !app_nil_r.
Qed.

Lemma triage_foldl t l :
  folders_to_process (foldl (triage_step ispokemon) t l)
  = folders_to_process t ++ (l ≫= process_entry ispokemon)
  /\ folders_to_rename (foldl (triage_step ispokemon) t l)
     = folders_to_rename t ++ (l ≫= rename_entry ispokemon)
  /\ queries (foldl (triage_step ispokemon) t l)
     = queries t ++ (l ≫= fun folder =>
                       from_option (fun n => [capitalize n]) []
                         (extract_pokemon_name folder)).
Proof.
  revert t. induction l as [|folder l IH]; intros t; simpl.
  - by rewrite !app_nil_r.
  - destruct (IH (triage_step ispokemon t folder)) as (-> & -> & ->).
    destruct (triage_step_lists t folder) as (-> & -> & ->).
    by rewrite <- !app_assoc.
Qed.

Lemma triage_folders_lists l :
  folders_to_process (triage_folders ispokemon l) = l ≫= process_entry ispokemon
  /\ folders_to_rename (triage_folders ispokemon l) = l ≫= rename_entry ispokemon
  /\ queries (triage_folders ispokemon l)
     = l ≫= fun folder =>
              from_option (fun n => [capitalize n]) [] (extract_pokemon_name folder).
Proof. unfold triage_folders. by destruct (triage_foldl
  {| folders_to_process := []; folders_to_rename := [];
     unprocessed_folders := []; queries := [] |} l) as (-> & -> & ->). Qed.

Lemma elem_of_process_entries l g n :
  (g, n) ∈ l ≫= process_entry ispokemon -> g ∈ l /\ candidate ispokemon g = Some n.
Proof.
  intros (f & Hf & Hl)%list_elem_of_bind. unfold process_entry in Hf.
  destruct (candidate ispokemon f) as [m|] eqn:E; [|by inversion Hf].
  apply list_elem_of_singleton in Hf. by simplify_eq.
Qed.

Lemma elem_of_rename_entries l g t :
  (g, t) ∈ l ≫= rename_entry ispokemon ->
  g ∈ l /\ exists n, candidate ispokemon g = Some n
                     /\ t = get_standard_folder_name n.
Proof.
  intros (f & Hf & Hl)%list_elem_of_bind. unfold rename_entry in Hf.
  destruct (candidate ispokemon f) as [m|] eqn:E; [|by inversion Hf].
  destruct (should_rename_folder f m); [|by inversion Hf].
  apply list_elem_of_singleton in Hf. simplify_eq. eauto.
Qed.
End triage.

(** C6, as the code has it: the calls of [ispokemon] are, in the order of
    the listing, one for every recognized folder, with the subject name
    capitalized as a whole: its first character in upper case, the rest as
    it is, underscores and hyphens kept.  The answer to that call decides
    whether the folder is kept.  The argument is the capitalized-word form
    of the trigger tag when the subject name has no underscore and no
    hyphen. *)
Theorem ispokemon_argument (ispokemon : str -> bool) (all_folders : list str) :
  let t := triage_folders ispokemon all_folders in
  queries t
  = omap (fun folder => capitalize <$> extract_pokemon_name folder) all_folders
  /\ (forall folder n,
         folder ∈ all_folders -> extract_pokemon_name folder = Some n ->
         ((folder, n) ∈ folders_to_process t <-> ispokemon (capitalize n) = true)
         /\ (exists c rest, n = c :: rest /\ capitalize n = char_upper c :: rest)
         /\ (forallb (fun c => negb (is_sep c)) n = true ->
             capitalize n = capitalized n)).
Proof.
  intros t. subst t.
  destruct (triage_folders_lists ispokemon all_folders) as (-> & _ & ->).
  split.
  - induction all_folders as [|folder l IH]; [done|]. cbn [omap list_omap].
    rewrite bind_cons, IH. by destruct (extract_pokemon_name folder).
  - intros folder n Hin E. split; [|split].
    + split.
      * intros [_ Hc]%elem_of_process_entries. unfold candidate in Hc.
        rewrite E in Hc. by destruct (ispokemon (capitalize n)).
      * intros Hp. apply list_elem_of_bind. exists folder. split; [|done].
        unfold process_entry, candidate. rewrite E, Hp. left.
    + apply extract_pokemon_name_subject in E. unfold is_subject_name in E.
      destruct n as [|c rest]; [done|]. exists c, rest. split; [done|].
      cbn [nonempty forallb andb] in E. apply andb_prop in E as [_ Hr].
      cbn [capitalize]. by rewrite lower_subject.
    + intros Hn. unfold capitalized. rewrite split_on_no_sep by done.
      cbn [map concat]. by rewrite app_nil_r.
Qed.

Lemma ispokemon_argument_witness :
  let ispokemon := fun q : str => bool_decide (q = str_of "Pikachu") in
  let t := triage_folders ispokemon [str_of "pikachu_(pokemon)"; str_of "mr_mime"] in
  queries t = [str_of "Pikachu"; str_of "Mr_mime"]
  /\ (str_of "pikachu_(pokemon)", str_of "pikachu") ∈ folders_to_process t
  /\ capitalize (str_of "pikachu") = capitalized (str_of "pikachu").
Proof.
  intros ispokemon t.
  destruct (ispokemon_argument ispokemon
              [str_of "pikachu_(pokemon)"; str_of "mr_mime"]) as [Hq Hf].
  destruct (Hf (str_of "pikachu_(pokemon)") (str_of "pikachu")) as (Hp & _ & Hc).
  { left. }
  { vm_compute. reflexivity. }
  split; [|split].
  - etransitivity; [exact Hq|]. vm_compute. reflexivity.
  - apply Hp. vm_compute. reflexivity.
  - apply Hc. vm_compute. reflexivity.
Defined.

(** C6 fails on the folder [mr_mime]: [ispokemon] is asked about [Mr_mime],
    the capitalized-word form is [MrMime]; a database that knows [MrMime]
    only leaves the folder unprocessed. *)
Lemma ispokemon_argument_mr_mime :
  extract_pokemon_name (str_of "mr_mime") = Some (str_of "mr_mime")
  /\ queries (triage_folders (fun _ => true) [str_of "mr_mime"]) = [str_of "Mr_mime"]
  /\ capitalized (str_of "mr_mime") = str_of "MrMime"
  /\ str_of "Mr_mime" <> str_of "MrMime"
  /\ unprocessed_folders
       (triage_folders (fun q => bool_decide (q = str_of "MrMime")) [str_of "mr_mime"])
     = [(str_of "mr_mime", NotInDatabase)].
Proof. vm_compute. repeat split; discriminate. Qed.

(** * Folder Orchestrator: the rename loop and the processing loop *)

Lemma rename_step_cases d m lg o t :
  (is_Some (d !! t)
   /\ rename_step (d, m, lg) (o, t) = (d, m, lg ++ [RenameWarning o t]))
  \/ (d !! t = None /\ exists n, d !! o = Some n
      /\ rename_step (d, m, lg) (o, t)
         = (<[t := n]> (delete o d), <[o := t]> m, lg ++ [Renamed o t]))
  \/ (d !! t = None /\ d !! o = None
      /\ rename_step (d, m, lg) (o, t) = (d, m, lg ++ [RenameError o])).
Proof.
  unfold rename_step.
  destruct (d !! t) eqn:Et; [left; eauto|].
  destruct (d !! o) eqn:Eo; [right; left; eauto|right; right; eauto].
Qed.

(** An invariant of the loop: it holds at the start and every step on an
    item of the list keeps it. *)
Lemma rename_folders_ind (P : gmap str node * gmap str str * list event -> Prop) rs st :
  P st ->
  (forall st item, item ∈ rs -> P st -> P (rename_step st item)) ->
  P (rename_folders rs st).
Proof.
  unfold rename_folders. revert st.
  induction rs as [|item rs IH]; intros st Hst Hstep; simpl; [done|].
  apply IH.
  - apply Hstep; [left|done].
  - intros st' item' Hin. apply Hstep. by right.
Qed.

Lemma rename_folders_app rs1 rs2 st :
  rename_folders (rs1 ++ rs2) st = rename_folders rs2 (rename_folders rs1 st).
Proof. apply foldl_app. Qed.

Lemma rename_folders_cons item rs st :
  rename_folders (item :: rs) st = rename_folders rs (rename_step st item).
Proof. reflexivity. Qed.

Section processing.
Variable tags_to_absorb : gset str.

Lemma process_txt_files_other d item k :
  item.1 <> k -> process_txt_files tags_to_absorb d item !! k = d !! k.
Proof.
  intros Hne. unfold process_txt_files.
  destruct (d !! item.1) as [[|txt]|]; try done. by rewrite lookup_insert_ne.
Qed.

Lemma process_foldl_other items d k :
  (forall item, item ∈ items -> item.1 <> k) ->
  foldl (process_txt_files tags_to_absorb) d items !! k = d !! k.
Proof.
  revert d. induction items as [|item items IH]; intros d Hne; simpl; [done|].
  rewrite IH by (intros i Hi; apply Hne; by right).
  apply process_txt_files_other, Hne. left.
Qed.

Lemma process_foldl_once before k n after d txt :
  d !! k = Some (Dir txt) ->
  (forall item, item ∈ before -> item.1 <> k) ->
  (forall item, item ∈ after -> item.1 <> k) ->
  foldl (process_txt_files tags_to_absorb) d (before ++ (k, n) :: after) !! k
  = Some (Dir (curate_txt n tags_to_absorb txt)).
Proof.
  intros Hd Hb Ha. rewrite foldl_app. cbn [foldl].
  rewrite process_foldl_other by done.
  unfold process_txt_files at 1. cbn [fst snd].
  rewrite process_foldl_other, Hd by done.
  by rewrite lookup_insert_eq.
Qed.
End processing.

(** * Two folders with one target *)

Section collision.
Variables (T f1 f2 : str) (n1 n2 : node).
Hypothesis Hf12 : f1 <> f2.

Lemma waiting_step st o t :
  waiting T f1 f2 n1 n2 st -> o <> f1 -> o <> f2 -> t <> T ->
  waiting T f1 f2 n1 n2 (rename_step st (o, t)).
Proof.
  destruct st as [[d m] lg]. intros (HT & H1 & H2 & Hm2 & HmT & Hmf) Ho1 Ho2 Ht.
  destruct (rename_step_cases d m lg o t)
    as [[_ ->]|[(Hfree & n & Ho & ->)|(_ & _ & ->)]]; try done.
  assert (t <> f1) by (intros ->; congruence).
  assert (t <> f2) by (intros ->; congruence).
  unfold waiting. repeat split.
  - rewrite lookup_insert_ne by done. by apply lookup_delete_None; right.
  - by rewrite lookup_insert_ne, lookup_delete_ne.
  - by rewrite lookup_insert_ne, lookup_delete_ne.
  - by rewrite lookup_insert_ne.
  - intros g. destruct (decide (o = g)) as [->|].
    + rewrite lookup_insert_eq. congruence.
    + by rewrite lookup_insert_ne.
  - intros g. destruct (decide (o = g)) as [->|].
    + rewrite lookup_insert_eq. congruence.
    + by rewrite lookup_insert_ne.
Qed.

Lemma waiting_first st :
  waiting T f1 f2 n1 n2 st -> taken T f1 f2 n1 n2 (rename_step st (f1, T)).
Proof.
  destruct st as [[d m] lg]. intros (HT & H1 & H2 & Hm2 & HmT & Hmf).
  destruct (rename_step_cases d m lg f1 T)
    as [[[? ?] _]|[(_ & n & Ho & ->)|(_ & ? & _)]]; try congruence.
  assert (T <> f2) by (intros ->; congruence).
  assert (n = n1) as -> by congruence.
  unfold taken. repeat split.
  - by rewrite lookup_insert_eq.
  - by rewrite lookup_insert_ne, lookup_delete_ne.
  - by rewrite lookup_insert_eq.
  - by rewrite lookup_insert_ne.
  - intros g. destruct (decide (f1 = g)) as [->|]; [done|].
    rewrite lookup_insert_ne by done. intros. by destruct (HmT g).
  - intros g. destruct (decide (f1 = g)) as [->|].
    + rewrite lookup_insert_eq. congruence.
    + by rewrite lookup_insert_ne.
  - apply elem_of_app. right. left.
Qed.

Lemma taken_step st o t :
  taken T f1 f2 n1 n2 st -> o <> f1 -> o <> f2 -> o <> T ->
  taken T f1 f2 n1 n2 (rename_step st (o, t)).
Proof.
  destruct st as [[d m] lg].
  intros (HT & H2 & Hm1 & Hm2 & HmT & Hmf & Hlog) Ho1 Ho2 HoT.
  destruct (rename_step_cases d m lg o t)
    as [[_ ->]|[(Hfree & n & Ho & ->)|(_ & _ & ->)]].
  - unfold taken. repeat split; try done. apply elem_of_app. by left.
  - assert (t <> T) by (intros ->; congruence).
    assert (t <> f2) by (intros ->; congruence).
    unfold taken. repeat split.
    + by rewrite lookup_insert_ne, lookup_delete_ne.
    + by rewrite lookup_insert_ne, lookup_delete_ne.
    + by rewrite lookup_insert_ne.
    + by rewrite lookup_insert_ne.
    + intros g. destruct (decide (o = g)) as [->|].
      * rewrite lookup_insert_eq. congruence.
      * rewrite lookup_insert_ne by done. apply HmT.
    + intros g. destruct (decide (o = g)) as [->|].
      * rewrite lookup_insert_eq. congruence.
      * by rewrite lookup_insert_ne.
    + apply elem_of_app. by left.
  - unfold taken. repeat split; try done. apply elem_of_app. by left.
Qed.

Lemma taken_second st :
  taken T f1 f2 n1 n2 st ->
  taken T f1 f2 n1 n2 (rename_step st (f2, T))
  /\ RenameWarning f2 T ∈ (rename_step st (f2, T)).2.
Proof.
  destruct st as [[d m] lg].
  intros (HT & H2 & Hm1 & Hm2 & HmT & Hmf & Hlog).
  destruct (rename_step_cases d m lg f2 T)
    as [[_ ->]|[(? & _)|(? & _)]]; try congruence.
  split; [|apply elem_of_app; right; left].
  unfold taken. repeat split; try done. apply elem_of_app. by left.
Qed.

Lemma rename_step_log st item e : e ∈ st.2 -> e ∈ (rename_step st item).2.
Proof.
  destruct st as [[d m] lg], item as [o t]. intros He.
  destruct (rename_step_cases d m lg o t)
    as [[_ ->]|[(_ & n & _ & ->)|(_ & _ & ->)]];
    apply elem_of_app; by left.
Qed.
End collision.

Lemma rename_entry_candidate ispokemon f n :
  candidate ispokemon f = Some n ->
  f <> get_standard_folder_name n ->
  rename_entry ispokemon f = [(f, get_standard_folder_name n)].
Proof.
  intros Hc Hne. unfold rename_entry, should_rename_folder. rewrite Hc.
  by rewrite bool_decide_eq_false_2.
Qed.

Lemma process_entry_candidate ispokemon f n :
  candidate ispokemon f = Some n -> process_entry ispokemon f = [(f, n)].
Proof. intros Hc. unfold process_entry. by rewrite Hc. Qed.

(** C7, as the code has it: two candidate folders [f1] and [f2], listed
    in this order, have the same canonical name [T]; nothing is stored
    under [T] when the pass starts and no candidate listed before [f1] has
    this canonical name.  Then [f1] is renamed to [T] and its text files
    are processed there; the rename of [f2] is skipped with a warning, and
    [f2] is still there under its own name, its text files processed. *)
Theorem rename_collision (ispokemon : str -> bool) (absorb : gset str)
    (d : gmap str node) (before between after : list str)
    (f1 f2 n1 n2 T : str) (txt1 txt2 : gmap str str) :
  NoDup (before ++ f1 :: between ++ f2 :: after) ->
  (forall g, g ∈ before ++ f1 :: between ++ f2 :: after -> is_Some (d !! g)) ->
  candidate ispokemon f1 = Some n1 ->
  candidate ispokemon f2 = Some n2 ->
  get_standard_folder_name n1 = T ->
  get_standard_folder_name n2 = T ->
  d !! T = None ->
  (forall g n, g ∈ before -> candidate ispokemon g = Some n ->
               get_standard_folder_name n <> T) ->
  d !! f1 = Some (Dir txt1) ->
  d !! f2 = Some (Dir txt2) ->
  let r := curate ispokemon absorb d (before ++ f1 :: between ++ f2 :: after) in
  Renamed f1 T ∈ printed r
  /\ RenameWarning f2 T ∈ printed r
  /\ disk_after r !! T = Some (Dir (curate_txt n1 absorb txt1))
  /\ disk_after r !! f2 = Some (Dir (curate_txt n2 absorb txt2)).
Proof.
  intros Hnd Hlisted Hc1 Hc2 HT1 HT2 Hfree Hfirst Hd1 Hd2 r. subst r.
  assert (forall g, g ∈ before ++ f1 :: between ++ f2 :: after -> g <> T) as HnT.
  { intros g Hg%Hlisted ->. rewrite Hfree in Hg. by destruct Hg. }
  assert (f1 <> T) as Hf1T by (apply HnT; set_solver).
  assert (f2 <> T) as Hf2T by (apply HnT; set_solver).
  apply NoDup_app in Hnd as (_ & Hb & Hnd).
  apply NoDup_cons in Hnd as [Hf1 Hnd].
  apply NoDup_app in Hnd as (_ & Hm & Hnd).
  apply NoDup_cons in Hnd as [Hf2 _].
  assert (f1 <> f2) as Hf12 by set_solver.
  assert (forall g, g ∈ before ∨ g ∈ between ∨ g ∈ after ->
                    g <> f1 /\ g <> f2 /\ g <> T) as Hother.
  { intros g Hg. repeat split.
    - intros ->. destruct Hg as [?|[?|?]]; set_solver.
    - intros ->. destruct Hg as [?|[?|?]]; set_solver.
    - apply HnT. set_solver. }
  unfold curate.
  destruct (triage_folders_lists ispokemon (before ++ f1 :: between ++ f2 :: after))
    as (-> & -> & _).
  rewrite !bind_app, !bind_cons, !bind_app, !bind_cons.
  rewrite (rename_entry_candidate _ _ _ Hc1), (rename_entry_candidate _ _ _ Hc2),
    (process_entry_candidate _ _ _ Hc1), (process_entry_candidate _ _ _ Hc2)
    by congruence.
  rewrite HT1, HT2. cbn [app].
  rewrite !rename_folders_app, rename_folders_cons,
    !rename_folders_app, rename_folders_cons.
  set (st1 := rename_folders (before ≫= rename_entry ispokemon) (d, ∅, [])).
  assert (waiting T f1 f2 (Dir txt1) (Dir txt2) st1) as W.
  { apply rename_folders_ind.
    - unfold waiting. repeat split; try done; intros g; by rewrite lookup_empty.
    - intros st [o t] (Ho & n & Hn & ->)%elem_of_rename_entries Hst.
      destruct (Hother o) as (? & ? & ?); [by left|].
      apply waiting_step; eauto. }
  apply waiting_first in W; [|done].
  set (st2 := rename_step st1 (f1, T)) in *.
  set (st3 := rename_folders (between ≫= rename_entry ispokemon) st2).
  assert (taken T f1 f2 (Dir txt1) (Dir txt2) st3) as K.
  { apply rename_folders_ind; [done|].
    intros st [o t] (Ho & _)%elem_of_rename_entries Hst.
    destruct (Hother o) as (? & ? & ?); [by right; left|].
    by apply taken_step. }
  apply taken_second in K as [K Kw].
  set (st4 := rename_step st3 (f2, T)) in *.
  set (st5 := rename_folders (after ≫= rename_entry ispokemon) st4).
  assert (taken T f1 f2 (Dir txt1) (Dir txt2) st5
          /\ RenameWarning f2 T ∈ st5.2) as [K5 Kw5].
  { apply (rename_folders_ind
             (fun st => taken T f1 f2 (Dir txt1) (Dir txt2) st
                        /\ RenameWarning f2 T ∈ st.2)); [done|].
    intros st [o t] (Ho & _)%elem_of_rename_entries [Hst Hw].
    destruct (Hother o) as (? & ? & ?); [by right; right|].
    split; [by apply taken_step|by apply rename_step_log]. }
  clearbody st5. clear st1 st2 st3 st4 W K Kw.
  destruct st5 as [[d5 m5] l5].
  destruct K5 as (HT & H2 & Hm1 & Hm2 & HmT & Hmf & Hlog).
  cbn [snd] in Kw5. cbn [disk_after printed].
  assert (forall l item,
             (forall g n, (g, n) ∈ l ≫= process_entry ispokemon ->
                          g ∈ before ∨ g ∈ between ∨ g ∈ after) ->
             item ∈ map (resolve m5) (l ≫= process_entry ispokemon) ->
             item.1 <> T /\ item.1 <> f2) as Hres.
  { intros l item Hl Hitem. apply list_elem_of_In, in_map_iff in Hitem.
    destruct Hitem as ([g n] & <- & Hgn%list_elem_of_In).
    destruct (Hother g) as (Hg1 & Hg2 & HgT); [by eapply Hl|].
    unfold resolve. cbn [fst snd].
    destruct (m5 !! g) as [t|] eqn:E; simpl; [|done].
    split; [intros ->; by apply Hg1, HmT|intros ->; by apply (Hmf g)]. }
  assert (resolve m5 (f1, n1) = (T, n1)) as Hr1.
  { unfold resolve. cbn [fst snd]. by rewrite Hm1. }
  assert (resolve m5 (f2, n2) = (f2, n2)) as Hr2.
  { unfold resolve. cbn [fst snd]. by rewrite Hm2. }
  rewrite map_app, map_cons, map_app, map_cons, Hr1, Hr2.
  repeat split; [done|done| |].
  - apply process_foldl_once; [done| |].
    + intros item Hitem. eapply Hres; [|done].
      intros g n [? _]%elem_of_process_entries. by left.
    + intros item [Hitem|Hitem]%elem_of_app.
      * eapply Hres; [|done].
        intros g n [? _]%elem_of_process_entries. by right; left.
      * apply elem_of_cons in Hitem as [->|Hitem]; [by cbn; congruence|].
        eapply Hres; [|done].
        intros g n [? _]%elem_of_process_entries. by right; right.
  - rewrite app_comm_cons, app_assoc.
    apply process_foldl_once; [done| |].
    + intros item [Hitem|Hitem]%elem_of_app.
      * eapply Hres; [|done].
        intros g n [? _]%elem_of_process_entries. by left.
      * apply elem_of_cons in Hitem as [->|Hitem]; [by cbn; congruence|].
        eapply Hres; [|done].
        intros g n [? _]%elem_of_process_entries. by right; left.
    + intros item Hitem. eapply Hres; [|done].
      intros g n [? _]%elem_of_process_entries. by right; right.
Qed.

Lemma rename_collision_witness :
  let d : gmap str node :=
    <[str_of "pikachu" := Dir {[ str_of "1.txt" := str_of "Cute, pikachu_(pokemon)" ]}]>
      (<[str_of "Pikachu" := Dir {[ str_of "2.txt" := str_of " solo " ]}]> ∅) in
  let r := curate (fun _ => true) ∅ d
             ([] ++ str_of "pikachu" :: [] ++ str_of "Pikachu" :: []) in
  Renamed (str_of "pikachu") (str_of "PikachuPokedex_IXL") ∈ printed r
  /\ RenameWarning (str_of "Pikachu") (str_of "PikachuPokedex_IXL") ∈ printed r
  /\ disk_after r !! str_of "PikachuPokedex_IXL"
     = Some (Dir (curate_txt (str_of "pikachu") ∅
                    {[ str_of "1.txt" := str_of "Cute, pikachu_(pokemon)" ]}))
  /\ disk_after r !! str_of "Pikachu"
     = Some (Dir (curate_txt (str_of "pikachu") ∅
                    {[ str_of "2.txt" := str_of " solo " ]})).
Proof.
  intros d.
  apply (rename_collision (fun _ => true) ∅ d [] [] []
           (str_of "pikachu") (str_of "Pikachu")
           (str_of "pikachu") (str_of "pikachu") (str_of "PikachuPokedex_IXL")).
  - cbn [app]. apply NoDup_cons. split; [|apply NoDup_singleton].
    rewrite list_elem_of_singleton. discriminate.
  - cbn [app].
    intros g [->|[->|[]%elem_of_nil]%elem_of_cons]%elem_of_cons; subst d.
    + rewrite lookup_insert_eq. by eexists.
    + rewrite lookup_insert_ne by discriminate. rewrite lookup_insert_eq. by eexists.
  - vm_compute. reflexivity.
  - vm_compute. reflexivity.
  - vm_compute. reflexivity.
  - vm_compute. reflexivity.
  - subst d. rewrite !lookup_insert_ne by discriminate. apply lookup_empty.
  - intros g n []%elem_of_nil.
  - subst d. by rewrite lookup_insert_eq.
  - subst d. rewrite lookup_insert_ne by discriminate. by rewrite lookup_insert_eq.
Defined.

(** C7 fails when the target is taken from the start: of the three
    folders [pikachu], [Pikachu] and [PikachuPokedex_IXL], the first two
    have the third as their canonical name; both renames are skipped with
    a warning, the first folder is not renamed. *)
Lemma rename_collision_target_taken :
  let d : gmap str node :=
    <[str_of "pikachu" := Dir ∅]>
      (<[str_of "Pikachu" := Dir ∅]>
         (<[str_of "PikachuPokedex_IXL" := Dir ∅]> ∅)) in
  let r := curate (fun _ => true) ∅ d
             [str_of "pikachu"; str_of "Pikachu"; str_of "PikachuPokedex_IXL"] in
  candidate (fun _ => true) (str_of "pikachu") = Some (str_of "pikachu")
  /\ candidate (fun _ => true) (str_of "Pikachu") = Some (str_of "pikachu")
  /\ get_standard_folder_name (str_of "pikachu") = str_of "PikachuPokedex_IXL"
  /\ printed r
     = [RenameWarning (str_of "pikachu") (str_of "PikachuPokedex_IXL");
        RenameWarning (str_of "Pikachu") (str_of "PikachuPokedex_IXL")]
  /\ disk_after r !! str_of "pikachu" <> None.
Proof. vm_compute. repeat split; discriminate. Qed.

(** * Name Pattern Classifier: the four formats *)

Lemma name_run_app_ge name s :
  forallb is_name_char name = true -> length name <= name_run (name ++ s).
Proof.
  induction name as [|c name IH]; simpl; [lia|].
  intros [-> Hn]%andb_prop. specialize (IH Hn). lia.
Qed.

(** A string [<name><literal>] matches whatever the literal is made of:
    the group is [<name>]. *)
Lemma re_match_name_suffix_any literal name suf :
  name <> [] ->
  forallb is_name_char name = true ->
  lower suf = lower literal ->
  re_match_name true literal (name ++ suf) = Some name.
Proof.
  intros Hne Hname Hsuf. unfold re_match_name.
  assert (length suf = length literal) as Hlen.
  { by rewrite <- (lower_length suf), Hsuf, lower_length. }
  pose proof (name_run_app_ge name suf Hname) as Hge.
  pose proof (name_run_le (name ++ suf)) as Hle.
  replace (Some name) with (Some (take (length name) (name ++ suf)))
    by (by rewrite take_app_length).
  apply backtrack_found.
  - destruct name; [done|]. simpl in *. lia.
  - rewrite drop_app_length. unfold match_tail.
    rewrite <- (app_nil_r suf), match_literal_ci by done. done.
  - intros i Hi. apply match_tail_short.
    rewrite length_drop. rewrite length_app in *. lia.
Qed.

Lemma lower_newline r : at_end r = true -> lower r = r.
Proof.
  unfold at_end. intros [H|H]%orb_prop; apply bool_decide_eq_true in H; by subst.
Qed.

(** A match ends with the last character of the literal, or with a line
    feed after it. *)
Lemma re_match_name_last literal c s g :
  re_match_name true (literal ++ [c]) s = Some g ->
  last (lower s) = Some (char_lower c) \/ last (lower s) = Some newline.
Proof.
  intros (_ & _ & m & r & -> & _ & Hm & Hr)%re_match_name_Some.
  rewrite !lower_app, Hm, lower_app, (lower_newline r Hr). cbn [lower map].
  unfold at_end in Hr. apply orb_prop in Hr as [Hr|Hr];
    apply bool_decide_eq_true in Hr; subst r.
  - left. by rewrite app_nil_r, !app_assoc, last_snoc.
  - right. by rewrite !app_assoc, last_snoc.
Qed.

Lemma re_match_name_other_suffix literal c literal' c' name suf :
  lower suf = lower (literal' ++ [c']) ->
  char_lower c' <> char_lower c ->
  char_lower c' <> newline ->
  re_match_name true (literal ++ [c]) (name ++ suf) = None.
Proof.
  intros Hsuf Hc Hnl.
  destruct (re_match_name true (literal ++ [c]) (name ++ suf)) as [g|] eqn:E; [|done].
  apply re_match_name_last in E.
  rewrite lower_app, Hsuf, lower_app in E. cbn [lower map] in E.
  rewrite app_assoc, last_snoc in E. destruct E as [[=]|[=]]; congruence.
Qed.

(** X1: format 2: [<name>_(pokemon)], the suffix in any letter case, is
    classified as [<name>] in lower case. *)
Theorem extract_pokemon_name_paren_suffix (name suf : str) :
  name <> [] ->
  forallb is_name_char name = true ->
  lower suf = lower (str_of "_(pokemon)") ->
  extract_pokemon_name (name ++ suf) = Some (lower name).
Proof.
  intros Hne Hname Hsuf. unfold extract_pokemon_name.
  rewrite (re_match_name_other_suffix (str_of "Pokedex_IX") "L"%char
             (str_of "_(pokemon") ")"%char) by done.
  by rewrite re_match_name_suffix_any.
Qed.

Lemma extract_pokemon_name_paren_suffix_witness :
  extract_pokemon_name (str_of "Mr-Mime" ++ str_of "_(Pokemon)")
  = Some (lower (str_of "Mr-Mime")).
Proof.
  apply extract_pokemon_name_paren_suffix;
    [discriminate|vm_compute; reflexivity|vm_compute; reflexivity].
Defined.

(** X2: format 3: [<name>_pokemon], the suffix in any letter case, is
    classified as [<name>] in lower case. *)
Theorem extract_pokemon_name_plain_suffix (name suf : str) :
  name <> [] ->
  forallb is_name_char name = true ->
  lower suf = lower (str_of "_pokemon") ->
  extract_pokemon_name (name ++ suf) = Some (lower name).
Proof.
  intros Hne Hname Hsuf. unfold extract_pokemon_name.
  rewrite (re_match_name_other_suffix (str_of "Pokedex_IX") "L"%char
             (str_of "_pokemo") "n"%char) by done.
  rewrite (re_match_name_other_suffix (str_of "_(pokemon") ")"%char
             (str_of "_pokemo") "n"%char) by done.
  by rewrite re_match_name_suffix_any.
Qed.

Lemma extract_pokemon_name_plain_suffix_witness :
  extract_pokemon_name (str_of "pikachu_pokemon" ++ str_of "_POKEMON")
  = Some (lower (str_of "pikachu_pokemon")).
Proof.
  apply extract_pokemon_name_plain_suffix;
    [discriminate|vm_compute; reflexivity|vm_compute; reflexivity].
Defined.

Lemma is_prefix_app p t : is_prefix p (p ++ t) = true.
Proof.
  induction p as [|c p IH]; [done|]. simpl.
  by rewrite bool_decide_eq_true_2.
Qed.

Lemma contains_prefix p h : is_prefix p h = true -> contains p h = true.
Proof. intros H. destruct h; simpl; [done|]. by rewrite H. Qed.

Lemma contains_app_r p a b : contains p b = true -> contains p (a ++ b) = true.
Proof.
  intros H. induction a as [|c a IH]; [done|]. simpl.
  rewrite IH. apply orb_true_r.
Qed.

Lemma contains_first (Q : ascii -> bool) c p h :
  forallb Q h = true -> Q c = false -> contains (c :: p) h = false.
Proof.
  intros Hh Hc. induction h as [|d h IH]; [done|]. simpl in *.
  apply andb_prop in Hh as [Hd Hh]. rewrite (IH Hh), orb_false_r.
  rewrite bool_decide_eq_false_2; [done|]. intros ->. congruence.
Qed.

Lemma has_suffix_shape_lower literal x :
  has_suffix_shape literal x = true ->
  exists name, x = name ++ drop (length name) x
               /\ lower (drop (length name) x) = lower literal.
Proof.
  unfold has_suffix_shape.
  intros [[[_ Hlen%Nat.leb_le]%andb_prop _]%andb_prop Hl%bool_decide_eq_true]%andb_prop.
  exists (take (length x - length literal) x).
  rewrite length_take, Nat.min_l by lia. by rewrite take_drop.
Qed.

(** X3: format 4: a non-empty folder name over letters, digits, underscores
    and hyphens that does not contain [pokedex] in any letter case and does
    not end in [_pokemon] after a non-empty name is classified as the whole
    name in lower case. *)
Theorem extract_pokemon_name_bare (x : str) :
  x <> [] ->
  forallb is_name_char x = true ->
  contains (str_of "pokedex") (lower x) = false ->
  has_suffix_shape (str_of "_pokemon") x = false ->
  extract_pokemon_name x = Some (lower x).
Proof.
  intros Hne Hx Hsub H3. unfold extract_pokemon_name.
  destruct (re_match_name true (str_of "Pokedex_IXL") x) eqn:E1.
  { apply re_match_name_shape in E1; [|done].
    apply has_suffix_shape_lower in E1 as (name & Hsplit & Hl).
    rewrite Hsplit, lower_app, Hl in Hsub.
    rewrite contains_app_r in Hsub; [done|].
    apply contains_prefix. apply (is_prefix_app (str_of "pokedex") (str_of "_ixl")). }
  destruct (re_match_name true (str_of "_(pokemon)") x) eqn:E2.
  { apply re_match_name_shape in E2; [|done].
    apply has_suffix_shape_lower in E2 as (name & Hsplit & Hl).
    rewrite Hsplit, forallb_app in Hx. apply andb_prop in Hx as [_ Hx].
    by rewrite (forallb_name_char_lower_eq _ _ Hl) in Hx. }
  destruct (re_match_name true (str_of "_pokemon") x) eqn:E3.
  { apply re_match_name_shape in E3; [congruence|done]. }
  assert (re_match_name false [] x = Some x) as ->.
  { unfold re_match_name. rewrite name_run_all by done.
    destruct (length x) as [|k] eqn:El; [by destruct x|]. cbn [backtrack].
    rewrite <- El, drop_all. cbn. by rewrite take_ge. }
  rewrite Hsub. cbn [negb andb].
  change (str_of "(pokemon)") with ("("%char :: str_of "pokemon)").
  rewrite (contains_first is_subject_char); [done| |done].
  by apply forallb_name_lower.
Qed.

Lemma extract_pokemon_name_bare_witness :
  extract_pokemon_name (str_of "Mr-Mime") = Some (lower (str_of "Mr-Mime")).
Proof.
  apply extract_pokemon_name_bare; [discriminate|..]; vm_compute; reflexivity.
Defined.

(** X4: the subject name of an ASCII folder name is the beginning of the
    folder name, in lower case. *)
Theorem extract_pokemon_name_prefix (x n : str) :
  forallb is_ascii x = true ->
  extract_pokemon_name x = Some n -> lower (take (length n) x) = n.
Proof.
  intros _.
  assert (forall ic literal g, re_match_name ic literal x = Some g ->
            lower (take (length (lower g)) x) = lower g) as Hg.
  { intros ic literal g (_ & _ & m & r & -> & _)%re_match_name_Some.
    by rewrite lower_length, take_app_length. }
  unfold extract_pokemon_name.
  repeat match goal with
  | |- context [re_match_name ?ic ?l x] =>
      let H := fresh "H" in
      destruct (re_match_name ic l x) eqn:H; [apply Hg in H|]
  end;
  try match goal with
  | |- context [if ?b then _ else _] => destruct b
  end;
  by intros [= <-].
Qed.

Lemma extract_pokemon_name_prefix_witness :
  lower (take (length (str_of "pikachu")) (str_of "PikachuPokedex_IXL"))
  = str_of "pikachu".
Proof.
  apply extract_pokemon_name_prefix; vm_compute; reflexivity.
Defined.

(** * Name Pattern Classifier: letter case *)

Lemma char_lower_newline c : char_lower c = newline -> c = newline.
Proof. ascii_cases c; vm_compute; intros; congruence. Qed.

Lemma at_end_lower r : at_end (lower r) = at_end r.
Proof.
  unfold at_end. destruct r as [|c [|d r]]; [done| |].
  - cbn [lower map].
    destruct (decide (c = newline)) as [->|Hc]; [done|].
    rewrite (bool_decide_eq_false_2 ([c] = [newline])) by congruence.
    rewrite (bool_decide_eq_false_2 ([char_lower c] = [newline])); [done|].
    intros [= H%char_lower_newline]. done.
  - cbn [lower map]. by rewrite !bool_decide_eq_false_2.
Qed.

Lemma name_run_lower s : name_run (lower s) = name_run s.
Proof.
  induction s as [|c s IH]; [done|]. cbn [lower map name_run].
  fold (lower s). by rewrite is_name_char_lower, IH.
Qed.

Lemma match_tail_lower ic literal s :
  ic = true \/ literal = [] ->
  match_tail ic literal (lower s) = match_tail ic literal s.
Proof.
  intros Hic. unfold match_tail.
  revert s. induction literal as [|p literal IH]; intros s.
  - cbn. apply at_end_lower.
  - destruct Hic as [->|[=]]. destruct s as [|c s]; [done|].
    cbn [lower map match_literal]. fold (lower s).
    unfold lit_eqb. rewrite char_lower_idem.
    destruct (bool_decide (char_lower p = char_lower c)); [|done].
    apply IH. by left.
Qed.

Lemma backtrack_lower ic literal s k :
  ic = true \/ literal = [] ->
  backtrack ic literal (lower s) k = option_map lower (backtrack ic literal s k).
Proof.
  intros Hic. induction k as [|k IH]; [done|]. cbn [backtrack].
  unfold lower at 1 2. rewrite skipn_map, firstn_map. fold (lower (drop (S k) s)).
  rewrite match_tail_lower by done.
  destruct (match_tail ic literal (drop (S k) s)); [done|]. apply IH.
Qed.

Lemma re_match_name_lower ic literal s :
  ic = true \/ literal = [] ->
  re_match_name ic literal (lower s)
  = option_map lower (re_match_name ic literal s).
Proof.
  intros Hic. unfold re_match_name. rewrite name_run_lower.
  by apply backtrack_lower.
Qed.

(** X5: the classifier does not look at the letter case of an ASCII folder
    name. *)
Theorem extract_pokemon_name_lower (x : str) :
  forallb is_ascii x = true ->
  extract_pokemon_name (lower x) = extract_pokemon_name x.
Proof.
  intros _.
  unfold extract_pokemon_name.
  rewrite !re_match_name_lower by (by left).
  rewrite (re_match_name_lower false []) by (by right).
  rewrite lower_idem.
  repeat match goal with
  | |- context [re_match_name ?ic ?l x] =>
      destruct (re_match_name ic l x); cbn [option_map]
  end;
  by rewrite ?lower_idem.
Qed.

Lemma extract_pokemon_name_lower_witness :
  extract_pokemon_name (lower (str_of "Mr-Mime_(Pokemon)"))
  = extract_pokemon_name (str_of "Mr-Mime_(Pokemon)").
Proof. apply extract_pokemon_name_lower. vm_compute. reflexivity. Defined.

(** * Name Canonicalizer: what the capitalized form keeps *)

Lemma char_lower_upper c : char_lower (char_upper c) = char_lower c.
Proof. ascii_cases c; reflexivity. Qed.

Lemma is_name_char_upper_eq c : is_name_char (char_upper c) = is_name_char c.
Proof. ascii_cases c; reflexivity. Qed.

Lemma is_sep_upper c : is_sep (char_upper c) = is_sep c.
Proof. ascii_cases c; reflexivity. Qed.

Lemma is_sep_lower c : is_sep (char_lower c) = is_sep c.
Proof. ascii_cases c; reflexivity. Qed.

Lemma lower_capitalize p : lower (capitalize p) = lower p.
Proof.
  destruct p as [|c p]; [done|]. cbn [capitalize lower map]. fold (lower p).
  by rewrite char_lower_upper, lower_idem.
Qed.

Lemma lower_concat (l : list str) : lower (concat l) = concat (map lower l).
Proof.
  induction l as [|x l IH]; [done|]. cbn [concat map].
  by rewrite lower_app, IH.
Qed.

Lemma concat_split_on sep s :
  concat (split_on sep s) = List.filter (fun c => negb (sep c)) s.
Proof.
  induction s as [|c s IH]; [done|]. cbn [split_on List.filter].
  destruct (sep c); cbn [negb concat app]; [done|].
  rewrite <- IH. pose proof (split_on_nonempty sep s).
  by destruct (split_on sep s).
Qed.

(** X7: up to letter case the capitalized form of an ASCII name is the name
    without its underscores and hyphens: the canonical folder name keeps no
    trace of where they were. *)
Theorem capitalized_lower (name : str) :
  forallb is_ascii name = true ->
  lower (capitalized name)
  = lower (List.filter (fun c => negb (is_sep c)) name).
Proof.
  intros _. unfold capitalized. rewrite lower_concat, map_map.
  rewrite (map_ext _ lower) by apply lower_capitalize.
  by rewrite <- lower_concat, concat_split_on.
Qed.

Lemma capitalized_lower_witness :
  lower (capitalized (str_of "mr_mime-JR"))
  = lower (List.filter (fun c => negb (is_sep c)) (str_of "mr_mime-JR")).
Proof. apply capitalized_lower. vm_compute. reflexivity. Defined.

Lemma capitalize_forallb (Q : ascii -> bool) p :
  (forall c, Q (char_upper c) = Q c) -> (forall c, Q (char_lower c) = Q c) ->
  forallb Q (capitalize p) = forallb Q p.
Proof.
  intros Hu Hl. destruct p as [|c p]; [done|]. cbn [capitalize forallb].
  rewrite Hu. f_equal. induction p as [|d p IH]; [done|].
  cbn [lower map forallb]. by rewrite Hl, <- IH.
Qed.

Lemma capitalized_forallb (Q : ascii -> bool) name :
  (forall c, Q (char_upper c) = Q c) -> (forall c, Q (char_lower c) = Q c) ->
  Forall (fun p => forallb Q p = true) (split_on is_sep name) ->
  forallb Q (capitalized name) = true.
Proof.
  intros Hu Hl Hall. unfold capitalized.
  induction Hall as [|p ps Hp _ IH]; [done|]. cbn [map concat].
  by rewrite forallb_app, capitalize_forallb, Hp, IH.
Qed.

Lemma canonical_no_sep_fixed n :
  is_subject_name n = true ->
  forallb (fun c => negb (is_sep c)) n = true ->
  extract_pokemon_name (get_standard_folder_name n) = Some n.
Proof.
  intros (Hne & Hc & Hl)%capitalize_subject Hsep.
  unfold get_standard_folder_name, capitalized.
  rewrite split_on_no_sep by done. cbn [map concat]. rewrite app_nil_r.
  rewrite extract_pokemon_name_format1 by done. by rewrite Hl.
Qed.

(** X8: a folder renamed to the canonical name of [name] is classified, on the
    next run, as [name] without its underscores and hyphens; the canonical
    name of that subject name is stable: it is classified as the same
    subject name and needs no rename. *)
Theorem canonical_name_settles (name : str) :
  is_subject_name name = true ->
  capitalized name <> [] ->
  let name2 := lower (capitalized name) in
  extract_pokemon_name (get_standard_folder_name name) = Some name2
  /\ extract_pokemon_name (get_standard_folder_name name2) = Some name2
  /\ should_rename_folder (get_standard_folder_name name2) name2 = false.
Proof.
  intros Hname Hne name2. subst name2.
  unfold is_subject_name in Hname. apply andb_prop in Hname as [_ Hchars].
  assert (forallb is_name_char (capitalized name) = true) as Hcap.
  { apply capitalized_forallb;
      [apply is_name_char_upper_eq|apply is_name_char_lower|].
    apply split_on_forallb. clear Hne.
    induction name as [|c n IH]; [done|]. cbn [forallb] in *.
    apply andb_prop in Hchars as [Hc Hn]. by rewrite is_subject_char_name, IH. }
  assert (forallb (fun c => negb (is_sep c)) (lower (capitalized name)) = true) as Hsep.
  { assert (forall s, forallb (fun c => negb (is_sep c)) (lower s)
                      = forallb (fun c => negb (is_sep c)) s) as Hlow.
    { induction s as [|c s IH]; [done|]. cbn [lower map forallb].
      by rewrite is_sep_lower, <- IH. }
    rewrite Hlow. apply capitalized_forallb.
    - intros c. by rewrite is_sep_upper.
    - intros c. by rewrite is_sep_lower.
    - apply split_on_pieces. }
  split; [|split].
  - unfold get_standard_folder_name. by apply extract_pokemon_name_format1.
  - apply canonical_no_sep_fixed; [|done]. by apply lower_group_subject.
  - unfold should_rename_folder. by rewrite bool_decide_eq_true_2.
Qed.

Lemma canonical_name_settles_witness :
  let name2 := lower (capitalized (str_of "mr_mime")) in
  extract_pokemon_name (get_standard_folder_name (str_of "mr_mime")) = Some name2
  /\ extract_pokemon_name (get_standard_folder_name name2) = Some name2
  /\ should_rename_folder (get_standard_folder_name name2) name2 = false.
Proof.
  apply canonical_name_settles; [vm_compute; reflexivity|discriminate].
Defined.

(** * Tag Processor: what the output line holds *)

(** The tags of the output line are the final tags of the code. *)
Lemma process_tags_entries s name absorb :
  no_comma name = true ->
  split_comma_space (process_tags s name absorb)
  = final_tags name (clean_tags name absorb (tag_pieces s)).
Proof.
  intros Hname. rewrite process_tags_stages.
  set (u := clean_tags name absorb (tag_pieces s)).
  assert (forall t, t ∈ u -> no_comma t = true) as Hu.
  { intros t Ht. by apply clean_tags_atoms in Ht as (? & _). }
  destruct (decide (lower (trigger_tag name) ∈ u)) as [Hin|Hnin].
  - rewrite final_tags_present by done.
    apply split_comma_space_join; [by intros Hnil; rewrite Hnil in Hin; inversion Hin|done].
  - rewrite final_tags_absent by done.
    apply split_comma_space_join; [done|].
    intros t [->|Ht]%elem_of_cons; [by apply no_comma_trigger_tag|by apply Hu].
Qed.

Lemma kept_lower_trigger name absorb :
  kept name absorb (lower (trigger_tag name)) <-> lower (trigger_tag name) ∉ absorb.
Proof.
  unfold kept. split; [by intros (_ & _ & ?)|]. intros H.
  split; [|split; [apply lower_trigger_tag_not_pokemon_tag|done]].
  by destruct (trigger_tag_snoc name) as [body ->].
Qed.

Lemma nonempty_true (t : str) : nonempty t = true <-> t <> [].
Proof. by destruct t. Qed.

(** X9: nothing is lost and nothing is made up: the tags of the output line
    are the trimmed, lower-cased pieces of the input that are not empty,
    are not [<name>_(pokemon)] and are not absorbed, and the trigger tag
    when its lower-case form is not one of them. *)
Theorem process_tags_tags (s name : str) (absorb : gset str) (t : str) :
  is_subject_name name = true ->
  t ∈ split_comma_space (process_tags s name absorb)
  <-> (t ∈ tag_pieces s /\ t <> [] /\ t <> pokemon_tag name /\ t ∉ absorb)
      \/ (t = trigger_tag name
          /\ ~ (lower (trigger_tag name) ∈ tag_pieces s
                /\ lower (trigger_tag name) ∉ absorb)).
Proof.
  intros Hname%subject_name_no_comma. rewrite process_tags_entries by done.
  set (u := clean_tags name absorb (tag_pieces s)).
  assert (forall x, x ∈ u <-> x ∈ tag_pieces s /\ x <> [] /\ x <> pokemon_tag name
                              /\ x ∉ absorb) as Hu.
  { intros x. unfold u. rewrite elem_of_clean_tags. unfold kept.
    by rewrite nonempty_true. }
  assert (lower (trigger_tag name) ∈ u
          <-> lower (trigger_tag name) ∈ tag_pieces s
              /\ lower (trigger_tag name) ∉ absorb) as Htl.
  { unfold u. rewrite elem_of_clean_tags, kept_lower_trigger. done. }
  assert (trigger_tag name ∉ tag_pieces s) as HT.
  { intros (_ & Hl & _)%tag_pieces_atoms. by apply (trigger_tag_mixed_case name). }
  destruct (decide (lower (trigger_tag name) ∈ u)) as [Hin|Hnin].
  - rewrite final_tags_present by done. rewrite Hu. split; [by left|].
    intros [?|[_ Hn]]; [done|]. by apply Htl in Hin.
  - rewrite final_tags_absent by done. rewrite elem_of_cons, Hu. split.
    + intros [->|?]; [right|by left]. split; [done|]. by rewrite <- Htl.
    + intros [?|[-> _]]; [by right|by left].
Qed.

Lemma process_tags_tags_witness :
  str_of "solo" ∈ split_comma_space
                    (process_tags (str_of " Solo ,cute") (str_of "pikachu") ∅)
  <-> (str_of "solo" ∈ tag_pieces (str_of " Solo ,cute") /\ str_of "solo" <> []
       /\ str_of "solo" <> pokemon_tag (str_of "pikachu")
       /\ str_of "solo" ∉ (∅ : gset str))
      \/ (str_of "solo" = trigger_tag (str_of "pikachu")
          /\ ~ (lower (trigger_tag (str_of "pikachu")) ∈ tag_pieces (str_of " Solo ,cute")
                /\ lower (trigger_tag (str_of "pikachu")) ∉ (∅ : gset str))).
Proof. apply process_tags_tags. vm_compute. reflexivity. Defined.

Lemma sublist_dedup_from seen l : dedup_from seen l `sublist_of` l.
Proof.
  revert seen. induction l as [|a l IH]; intros seen; simpl; [constructor|].
  destruct (decide (a ∈ seen)); [by apply sublist_cons|by apply sublist_skip].
Qed.

Lemma sublist_clean_tags name absorb l : clean_tags name absorb l `sublist_of` l.
Proof.
  unfold clean_tags, keep_tags. rewrite dedup_eq.
  etrans; [apply sublist_dedup_from|].
  etrans; [apply sublist_filter|].
  etrans; [apply sublist_filter|]. apply sublist_filter.
Qed.

(** X10: the tags of the output line, the trigger aside, come in the order
    they have in the input. *)
Theorem process_tags_order (s name : str) (absorb : gset str) :
  is_subject_name name = true ->
  exists u, u `sublist_of` tag_pieces s
            /\ (split_comma_space (process_tags s name absorb) = u
                \/ split_comma_space (process_tags s name absorb)
                   = trigger_tag name :: u).
Proof.
  intros Hname%subject_name_no_comma. rewrite process_tags_entries by done.
  exists (clean_tags name absorb (tag_pieces s)).
  split; [apply sublist_clean_tags|].
  unfold final_tags. destruct (existsb _ _); [by left|by right].
Qed.

Lemma process_tags_order_witness :
  exists u, u `sublist_of` tag_pieces (str_of "b, a, b, c")
            /\ (split_comma_space (process_tags (str_of "b, a, b, c") (str_of "pikachu") ∅) = u
                \/ split_comma_space (process_tags (str_of "b, a, b, c") (str_of "pikachu") ∅)
                   = trigger_tag (str_of "pikachu") :: u).
Proof. apply process_tags_order. vm_compute. reflexivity. Defined.

(** * Tag Processor: the second pass *)

(** What the second pass gives, from the tags the first pass kept. *)
Lemma process_tags_twice s name absorb :
  no_comma name = true ->
  let u := clean_tags name absorb (tag_pieces s) in
  process_tags (process_tags s name absorb) name absorb
  = if decide (lower (trigger_tag name) ∈ u \/ lower (trigger_tag name) ∈ absorb)
    then process_tags s name absorb
    else join (str_of ", ") (lower (trigger_tag name) :: u).
Proof.
  intros Hname u. rewrite (process_tags_stages s). fold u.
  pose proof (keep_tags_clean name absorb (tag_pieces s)) as Hkeep.
  pose proof (NoDup_clean_tags name absorb (tag_pieces s)) as Hnd.
  assert (forall t, t ∈ u -> is_atom t) as Hat.
  { intros t Ht. by apply clean_tags_atoms in Ht as (_ & _ & ?). }
  fold u in Hkeep, Hnd. clearbody u.
  destruct (decide (lower (trigger_tag name) ∈ u)) as [Hin|Hnin].
  - rewrite decide_True by by left.
    rewrite final_tags_present by done.
    apply process_tags_fixed_present; [done| |done].
    unfold clean_tags. by rewrite Hkeep, dedup_NoDup.
  - rewrite final_tags_absent by done.
    rewrite (process_tags_stages (join _ _)).
    rewrite tag_pieces_join by done. cbn [map concat].
    rewrite concat_map_atoms, tag_pieces_trigger_tag by done.
    unfold clean_tags. rewrite keep_tags_app, Hkeep.
    destruct (decide (lower (trigger_tag name) ∈ absorb)) as [Habs|Hnabs].
    + rewrite decide_True by by right.
      rewrite keep_tags_absorbed by done. cbn [app].
      by rewrite dedup_NoDup, final_tags_absent.
    + rewrite decide_False by (by intros [?|?]).
      rewrite keep_tags_id.
      2:{ intros t ->%list_elem_of_singleton. by apply kept_lower_trigger. }
      cbn [app]. rewrite dedup_NoDup by (by apply NoDup_cons).
      by rewrite final_tags_present by left.
Qed.

Lemma join_head_inj sep x y l :
  length x = length y -> join sep (x :: l) = join sep (y :: l) -> x = y.
Proof.
  intros Hlen. destruct l as [|z l]; [done|]. rewrite !join_cons2.
  by intros [? _]%app_inj_1.
Qed.

(** X11: when the second pass changes nothing: exactly when the lower-case
    trigger is among the tags of the first output, or is absorbed. *)
Theorem process_tags_idempotent_iff (s name : str) (absorb : gset str) :
  is_subject_name name = true ->
  process_tags (process_tags s name absorb) name absorb = process_tags s name absorb
  <-> lower (trigger_tag name) ∈ split_comma_space (process_tags s name absorb)
      \/ lower (trigger_tag name) ∈ absorb.
Proof.
  intros Hname%subject_name_no_comma.
  rewrite process_tags_twice, process_tags_entries by done.
  set (u := clean_tags name absorb (tag_pieces s)).
  destruct (decide (lower (trigger_tag name) ∈ u)) as [Hin|Hnin].
  - rewrite decide_True by by left.
    rewrite final_tags_present by done. split; [by left|done].
  - rewrite final_tags_absent by done.
    assert (lower (trigger_tag name) ∉ trigger_tag name :: u) as Hn.
    { intros [H|H]%elem_of_cons; [|done]. by apply (trigger_tag_mixed_case name). }
    destruct (decide (lower (trigger_tag name) ∈ absorb)) as [Habs|Hnabs].
    + rewrite decide_True by by right. split; [by right|done].
    + rewrite decide_False by (by intros [?|?]).
      rewrite process_tags_stages. fold u.
      rewrite final_tags_absent by done. split; [|by intros [?|?]].
      intros H%join_head_inj; [|apply lower_length].
      by apply trigger_tag_mixed_case in H.
Qed.

Lemma process_tags_idempotent_iff_witness :
  process_tags (process_tags (str_of "zzPikachuC1tr0n, cute") (str_of "pikachu") ∅)
    (str_of "pikachu") ∅
  = process_tags (str_of "zzPikachuC1tr0n, cute") (str_of "pikachu") ∅
  <-> lower (trigger_tag (str_of "pikachu"))
        ∈ split_comma_space
            (process_tags (str_of "zzPikachuC1tr0n, cute") (str_of "pikachu") ∅)
      \/ lower (trigger_tag (str_of "pikachu")) ∈ (∅ : gset str).
Proof. apply process_tags_idempotent_iff. vm_compute. reflexivity. Defined.

(** * Tag Processor: letter case of the input and of the configuration *)

Lemma split_on_lower s : split_on is_comma (lower s) = map lower (split_on is_comma s).
Proof.
  induction s as [|c s IH]; [done|]. cbn [lower map split_on]. fold (lower s).
  rewrite is_comma_lower, IH. destruct (is_comma c); [done|].
  by destruct (split_on is_comma s).
Qed.

Lemma tag_pieces_lower s : tag_pieces (lower s) = tag_pieces s.
Proof.
  unfold tag_pieces. rewrite split_on_lower, map_map. apply map_ext.
  intros p. by rewrite strip_lower, lower_idem.
Qed.

(** X12: the output line does not depend on the letter case of the input
    line. *)
Theorem process_tags_lower_input (s name : str) (absorb : gset str) :
  process_tags (lower s) name absorb = process_tags s name absorb.
Proof. by rewrite !process_tags_stages, tag_pieces_lower. Qed.

(** X14: with the absorb set as [main] builds it, no tag of the output line is
    a configured tag, whatever the letter case and the surrounding blanks
    of the configuration entry. *)
Theorem process_tags_absorb_config (s name : str) (config_tags : list str) (c : str) :
  is_subject_name name = true ->
  c ∈ config_tags ->
  strip (lower c) ∉ split_comma_space (process_tags s name (absorb_set config_tags)).
Proof.
  intros Hname%subject_name_no_comma Hc.
  rewrite process_tags_entries by done.
  assert (strip (lower c) ∈ absorb_set config_tags) as Habs.
  { unfold absorb_set. apply elem_of_list_to_set, list_elem_of_In, in_map_iff.
    exists c. split; [done|by apply list_elem_of_In]. }
  assert (forall t, t ∈ final_tags name
                          (clean_tags name (absorb_set config_tags) (tag_pieces s)) ->
                    t = trigger_tag name \/ t ∉ absorb_set config_tags) as Hfin.
  { intros t. unfold final_tags. destruct (existsb _ _).
    - intros [_ (_ & _ & ?)]%elem_of_clean_tags. by right.
    - intros [->|[_ (_ & _ & ?)]%elem_of_clean_tags]%elem_of_cons; [by left|by right]. }
  intros [HT|Hn]%Hfin; [|done].
  apply (trigger_tag_mixed_case name). by rewrite <- HT, strip_lower, lower_idem.
Qed.

Lemma process_tags_absorb_config_witness :
  strip (lower (str_of " Solo "))
    ∉ split_comma_space
        (process_tags (str_of "cute, SOLO") (str_of "pikachu")
           (absorb_set [str_of " Solo "])).
Proof.
  apply process_tags_absorb_config; [vm_compute; reflexivity|left].
Defined.

(** * Folder Orchestrator: every folder is accounted for *)

Section report.
Variable ispokemon : str -> bool.

Lemma triage_step_unprocessed t folder :
  unprocessed_folders (triage_step ispokemon t folder)
  = unprocessed_folders t ++ report_entry ispokemon folder.
Proof.
  unfold triage_step, report_entry, call_ispokemon.
  destruct (extract_pokemon_name folder) as [n|]; [|done].
  destruct (ispokemon (capitalize n)); cbn; [by rewrite app_nil_r|done].
Qed.

Lemma triage_foldl_unprocessed t l :
  unprocessed_folders (foldl (triage_step ispokemon) t l)
  = unprocessed_folders t ++ (l ≫= report_entry ispokemon).
Proof.
  revert t. induction l as [|folder l IH]; intros t; cbn [foldl].
  - by rewrite app_nil_r.
  - by rewrite IH, triage_step_unprocessed, bind_cons, <- app_assoc.
Qed.

Lemma entries_length folder :
  length (process_entry ispokemon folder) + length (report_entry ispokemon folder) = 1.
Proof.
  unfold process_entry, report_entry, candidate.
  destruct (extract_pokemon_name folder) as [n|]; [|done].
  by destruct (ispokemon (capitalize n)).
Qed.
End report.

(** X16: the first loop accounts for every listed folder once: it is kept with
    its subject name when it is recognized and the database knows it, and
    reported with the reason otherwise. *)
Theorem triage_partition (ispokemon : str -> bool) (all_folders : list str) :
  let t := triage_folders ispokemon all_folders in
  (forall folder n,
      (folder, n) ∈ folders_to_process t
      <-> folder ∈ all_folders /\ candidate ispokemon folder = Some n)
  /\ (forall folder r,
         (folder, r) ∈ unprocessed_folders t
         <-> folder ∈ all_folders /\ candidate ispokemon folder = None
             /\ r = match extract_pokemon_name folder with
                    | None => UnrecognizedFormat
                    | Some _ => NotInDatabase
                    end)
  /\ length (folders_to_process t) + length (unprocessed_folders t)
     = length all_folders.
Proof.
  intros t. subst t.
  destruct (triage_folders_lists ispokemon all_folders) as (-> & _ & _).
  unfold triage_folders. rewrite triage_foldl_unprocessed. cbn [unprocessed_folders app].
  split; [|split].
  - intros folder n. split; [apply elem_of_process_entries|].
    intros [Hin Hc]. apply list_elem_of_bind. exists folder. split; [|done].
    unfold process_entry. rewrite Hc. left.
  - intros folder r. rewrite list_elem_of_bind. unfold report_entry, candidate. split.
    + intros (f & Hf & Hin).
      destruct (extract_pokemon_name f) as [n|] eqn:E.
      * destruct (ispokemon (capitalize n)) eqn:Ep; [by inversion Hf|].
        apply list_elem_of_singleton in Hf. simplify_eq. by rewrite E, Ep.
      * apply list_elem_of_singleton in Hf. simplify_eq. by rewrite E.
    + intros (Hin & Hc & ->). exists folder. split; [|done].
      destruct (extract_pokemon_name folder) as [n|]; [|left].
      destruct (ispokemon (capitalize n)); [done|left].
  - induction all_folders as [|f l IH]; [done|].
    rewrite !bind_cons, !length_app. cbn [length].
    pose proof (entries_length ispokemon f). lia.
Qed.

(** * Folder Orchestrator: what the rename loop keeps *)

Lemma current_path_insert_eq m o t : current_path (<[o := t]> m) o = t.
Proof. unfold current_path. by rewrite lookup_insert_eq. Qed.

Lemma current_path_insert_ne m o t g :
  o <> g -> current_path (<[o := t]> m) g = current_path m g.
Proof. intros H. unfold current_path. by rewrite lookup_insert_ne. Qed.

Lemma renaming_start disk0 : renaming disk0 [] (disk0, ∅, []).
Proof.
  unfold renaming, current_path. split; [|split; [|split]].
  - intros g v. by rewrite lookup_empty.
  - intros g g' _ _. by rewrite !lookup_empty.
  - intros g t. by rewrite lookup_empty.
  - intros o []%elem_of_nil.
Qed.

Lemma renaming_step disk0 done st o t :
  renaming disk0 done st ->
  is_Some (disk0 !! o) ->
  o ∉ done.*1 ->
  renaming disk0 (done ++ [(o, t)]) (rename_step st (o, t)).
Proof.
  destruct st as [[d m] lg]. intros (Ha & Hb & Hc & He) [v0 Ho] Hnew.
  assert (m !! o = None) as Hmo.
  { destruct (m !! o) as [t'|] eqn:E; [|done].
    apply Hc in E as [E _]. destruct Hnew.
    by apply (list_elem_of_fmap_2 fst) in E. }
  assert (current_path m o = o) as Hpo by (unfold current_path; by rewrite Hmo).
  pose proof (Ha o v0 Ho) as Hdo. rewrite Hpo in Hdo.
  destruct (rename_step_cases d m lg o t)
    as [[_ ->]|[(Hfree & n & Hn & ->)|(_ & ? & _)]]; [| |congruence].
  - unfold renaming. split; [done|]. split; [done|]. split.
    + intros g t' [? ?]%Hc. split; apply elem_of_app; by left.
    + intros o' [Hin|Hin%list_elem_of_singleton]%elem_of_app; [by apply (He o')|done].
  - assert (forall g, is_Some (disk0 !! g) -> g <> o ->
                      current_path m g <> t /\ current_path m g <> o) as Hother.
    { intros g [v Hg] Hne. pose proof (Ha g v Hg) as Hd. split.
      - intros Heq. rewrite Heq in Hd. congruence.
      - intros Heq. apply Hne, Hb; [by eexists|by eexists|by rewrite Hpo]. }
    unfold renaming. split; [|split; [|split]].
    + intros g v Hg. destruct (decide (o = g)) as [<-|Hne].
      * rewrite current_path_insert_eq, lookup_insert_eq. congruence.
      * rewrite current_path_insert_ne by done.
        destruct (Hother g) as [? ?]; [by eexists|done|].
        rewrite lookup_insert_ne, lookup_delete_ne by done. by apply Ha.
    + intros g g' Hg Hg'.
      destruct (decide (o = g)) as [<-|Hne], (decide (o = g')) as [<-|Hne']; [done| | |].
      * rewrite current_path_insert_eq, current_path_insert_ne by done.
        intros Heq. by destruct (Hother g') as [? _].
      * rewrite current_path_insert_eq, current_path_insert_ne by done.
        intros Heq. by destruct (Hother g) as [? _].
      * rewrite !current_path_insert_ne by done. by apply Hb.
    + intros g t' Hg. destruct (decide (o = g)) as [<-|Hne].
      * rewrite lookup_insert_eq in Hg. simplify_eq.
        split; apply elem_of_app; right; left.
      * rewrite lookup_insert_ne in Hg by done.
        apply Hc in Hg as [? ?]. split; apply elem_of_app; by left.
    + intros o' [Hin|Hin%list_elem_of_singleton]%elem_of_app; [by apply (He o')|done].
Qed.

Lemma renaming_folders disk0 rs done st :
  renaming disk0 done st ->
  NoDup rs.*1 ->
  (forall o, o ∈ rs.*1 -> is_Some (disk0 !! o) /\ o ∉ done.*1) ->
  renaming disk0 (done ++ rs) (rename_folders rs st).
Proof.
  revert done st. induction rs as [|[o t] rs IH]; intros done st Hst Hnd Hrs.
  - by rewrite app_nil_r.
  - rewrite rename_folders_cons. cbn [fmap list_fmap fst] in Hnd.
    apply NoDup_cons in Hnd as [Ho Hnd].
    destruct (Hrs o) as [Hdo Hdone]; [left|].
    replace (done ++ (o, t) :: rs) with ((done ++ [(o, t)]) ++ rs)
      by (by rewrite <- app_assoc).
    apply IH; [by apply renaming_step|done|].
    intros o' Ho'. destruct (Hrs o') as [Hd' Hn']; [by right|]. split; [done|].
    rewrite fmap_app, elem_of_app. intros [Hin|Hin%list_elem_of_singleton]; [done|].
    cbn in Hin. by subst.
Qed.

Lemma NoDup_entries (entry : str -> list (str * str)) all_folders :
  (forall f item, item ∈ entry f -> entry f = [item] /\ item.1 = f) ->
  NoDup all_folders -> NoDup (all_folders ≫= entry).*1.
Proof.
  intros Hentry. induction 1 as [|f l Hf Hnd IH]; [constructor|].
  rewrite bind_cons, fmap_app. destruct (entry f) as [|item rest] eqn:E; [done|].
  destruct (Hentry f item) as [Heq Hfst]; [rewrite E; left|].
  rewrite E in Heq. simplify_eq. cbn. apply NoDup_cons. split; [|done].
  intros (item' & Hi & (f' & Hf' & Hin)%list_elem_of_bind)%list_elem_of_fmap.
  destruct (Hentry f' item' Hf') as [_ <-]. by rewrite <- Hi in Hin.
Qed.

Lemma rename_entry_single ispokemon f item :
  item ∈ rename_entry ispokemon f -> rename_entry ispokemon f = [item] /\ item.1 = f.
Proof.
  unfold rename_entry. destruct (candidate ispokemon f); [|by intros []%elem_of_nil].
  destruct (should_rename_folder f _); [|by intros []%elem_of_nil].
  by intros ->%list_elem_of_singleton.
Qed.

Lemma process_entry_single ispokemon f item :
  item ∈ process_entry ispokemon f -> process_entry ispokemon f = [item] /\ item.1 = f.
Proof.
  unfold process_entry. destruct (candidate ispokemon f); [|by intros []%elem_of_nil].
  by intros ->%list_elem_of_singleton.
Qed.

(** The state of the directory and of [rename_map] after the rename loop
    of a pass. *)
Lemma renaming_pass ispokemon disk0 all_folders :
  NoDup all_folders ->
  (forall f, f ∈ all_folders -> is_Some (disk0 !! f)) ->
  renaming disk0 (all_folders ≫= rename_entry ispokemon)
    (rename_folders (all_folders ≫= rename_entry ispokemon) (disk0, ∅, [])).
Proof.
  intros Hnd Hlisted.
  apply (renaming_folders disk0 _ [] _ (renaming_start disk0)).
  - apply NoDup_entries; [apply rename_entry_single|done].
  - intros o ([o' t] & -> & [Hin _]%elem_of_rename_entries)%list_elem_of_fmap.
    split; [by apply Hlisted|]. cbn. by intros []%elem_of_nil.
Qed.

Lemma curate_pass ispokemon absorb disk0 all_folders :
  NoDup all_folders ->
  (forall f, f ∈ all_folders -> is_Some (disk0 !! f)) ->
  exists d1 m lg,
    renaming disk0 (all_folders ≫= rename_entry ispokemon) (d1, m, lg)
    /\ disk_after (curate ispokemon absorb disk0 all_folders)
       = foldl (process_txt_files absorb) d1
           (map (resolve m) (all_folders ≫= process_entry ispokemon))
    /\ printed (curate ispokemon absorb disk0 all_folders) = lg
    /\ rename_folders (all_folders ≫= rename_entry ispokemon) (disk0, ∅, [])
       = (d1, m, lg).
Proof.
  intros Hnd Hlisted. unfold curate.
  destruct (triage_folders_lists ispokemon all_folders) as (-> & -> & _).
  pose proof (renaming_pass ispokemon disk0 all_folders Hnd Hlisted) as Hinv.
  destruct (rename_folders _ _) as [[d1 m] lg]. by exists d1, m, lg.
Qed.

Lemma resolve_paths m (items : list (str * str)) :
  (map (resolve m) items).*1 = current_path m <$> items.*1.
Proof. induction items as [|[g n] items IH]; [done|]. cbn. by rewrite <- IH. Qed.

Lemma NoDup_resolve ispokemon disk0 done d1 m lg all_folders :
  renaming disk0 done (d1, m, lg) ->
  NoDup all_folders ->
  (forall f, f ∈ all_folders -> is_Some (disk0 !! f)) ->
  NoDup (map (resolve m) (all_folders ≫= process_entry ispokemon)).*1.
Proof.
  intros (_ & Hb & _) Hnd Hlisted. rewrite resolve_paths.
  assert (forall g, g ∈ (all_folders ≫= process_entry ispokemon).*1 -> g ∈ all_folders) as Hin.
  { intros g ([g' n] & -> & [? _]%elem_of_process_entries)%list_elem_of_fmap. done. }
  apply NoDup_fmap_2_strong.
  - intros g g' Hg%Hin Hg'%Hin. apply Hb; by apply Hlisted.
  - apply NoDup_entries; [apply process_entry_single|done].
Qed.

Lemma process_foldl_distinct absorb items d k n txt :
  NoDup items.*1 ->
  (k, n) ∈ items ->
  d !! k = Some (Dir txt) ->
  foldl (process_txt_files absorb) d items !! k
  = Some (Dir (curate_txt n absorb txt)).
Proof.
  intros Hnd (l1 & l2 & ->)%list_elem_of_split Hd.
  rewrite fmap_app, fmap_cons in Hnd. cbn [fst] in Hnd.
  apply NoDup_app in Hnd as (_ & Hdisj & [Hk _]%NoDup_cons).
  apply process_foldl_once; [done| |].
  - intros item Hitem Heq. apply (Hdisj k); [|left].
    rewrite <- Heq. by apply list_elem_of_fmap_2.
  - intros item Hitem Heq. apply Hk. rewrite <- Heq. by apply list_elem_of_fmap_2.
Qed.

Lemma processed_at_current_path ispokemon absorb disk0 done d1 m lg all_folders g n txt :
  renaming disk0 done (d1, m, lg) ->
  NoDup all_folders ->
  (forall f, f ∈ all_folders -> is_Some (disk0 !! f)) ->
  g ∈ all_folders ->
  candidate ispokemon g = Some n ->
  disk0 !! g = Some (Dir txt) ->
  foldl (process_txt_files absorb) d1
    (map (resolve m) (all_folders ≫= process_entry ispokemon)) !! current_path m g
  = Some (Dir (curate_txt n absorb txt)).
Proof.
  intros Hinv Hnd Hlisted Hg Hc Hd.
  pose proof (NoDup_resolve ispokemon _ _ _ _ _ _ Hinv Hnd Hlisted) as Hpaths.
  destruct Hinv as (Ha & _).
  apply process_foldl_distinct; [done| |by apply Ha].
  apply list_elem_of_In, in_map_iff. exists (g, n). split; [done|].
  apply list_elem_of_In, list_elem_of_bind. exists g. split; [|done].
  rewrite (process_entry_candidate _ _ _ Hc). left.
Qed.

Lemma rename_log_folders rs st :
  (forall e, e ∈ st.2 -> event_folder e ∈ rs.*1) ->
  forall e, e ∈ (rename_folders rs st).2 -> event_folder e ∈ rs.*1.
Proof.
  intros Hst. apply (rename_folders_ind (fun st => forall e, e ∈ st.2 -> event_folder e ∈ rs.*1));
    [done|].
  intros [[d m] lg] [o t] Hin Hlog e.
  assert (o ∈ rs.*1) as Ho by (by apply (list_elem_of_fmap_2 fst) in Hin).
  destruct (rename_step_cases d m lg o t)
    as [[_ ->]|[(_ & n & _ & ->)|(_ & _ & ->)]]; cbn [snd];
    (intros [He|He%list_elem_of_singleton]%elem_of_app;
     [by apply Hlog|by subst e]).
Qed.

(** X17: every candidate folder is processed once, where it is after the rename
    loop: under its own name, or under its canonical name when the loop has
    renamed it.  Its text files hold the processed tag lines. *)
Theorem curate_candidate (ispokemon : str -> bool) (absorb : gset str)
    (d : gmap str node) (all_folders : list str) (g n : str) (txt : gmap str str) :
  NoDup all_folders ->
  (forall f, f ∈ all_folders -> is_Some (d !! f)) ->
  g ∈ all_folders ->
  candidate ispokemon g = Some n ->
  d !! g = Some (Dir txt) ->
  let r := curate ispokemon absorb d all_folders in
  exists path,
    disk_after r !! path = Some (Dir (curate_txt n absorb txt))
    /\ (path = g
        \/ (path = get_standard_folder_name n /\ Renamed g path ∈ printed r)).
Proof.
  intros Hnd Hlisted Hg Hc Hd r. subst r.
  destruct (curate_pass ispokemon absorb d all_folders Hnd Hlisted)
    as (d1 & m & lg & Hinv & -> & -> & Hrn).
  exists (current_path m g). split.
  - by eapply processed_at_current_path.
  - destruct Hinv as (_ & _ & Hm & _). unfold current_path. destruct (m !! g) as [t|] eqn:E; [|by left].
    right. apply Hm in E as [(_ & n' & Hc' & ->)%elem_of_rename_entries Hlog].
    cbn. by simplify_eq.
Qed.

Lemma curate_candidate_witness :
  let d : gmap str node :=
    <[str_of "mr-mime" := Dir {[ str_of "a.txt" := str_of "Mr-Mime_(pokemon), solo" ]}]> ∅ in
  let r := curate (fun _ => true) ∅ d [str_of "mr-mime"] in
  exists path,
    disk_after r !! path
    = Some (Dir (curate_txt (str_of "mr-mime") ∅
                   {[ str_of "a.txt" := str_of "Mr-Mime_(pokemon), solo" ]}))
    /\ (path = str_of "mr-mime"
        \/ (path = get_standard_folder_name (str_of "mr-mime")
            /\ Renamed (str_of "mr-mime") path ∈ printed r)).
Proof.
  intros d. apply curate_candidate.
  - apply NoDup_singleton.
  - intros f ->%list_elem_of_singleton. subst d. rewrite lookup_insert_eq. by eexists.
  - left.
  - vm_compute. reflexivity.
  - subst d. by rewrite lookup_insert_eq.
Defined.

(** X18: what is not a candidate folder of the listing is left as it was:
    files, folders that are not listed, and folders reported as
    unprocessed are neither renamed, overwritten nor rewritten. *)
Theorem curate_others_untouched (ispokemon : str -> bool) (absorb : gset str)
    (d : gmap str node) (all_folders : list str) (k : str) (v : node) :
  NoDup all_folders ->
  (forall f, f ∈ all_folders -> is_Some (d !! f)) ->
  d !! k = Some v ->
  (k ∈ all_folders -> candidate ispokemon k = None) ->
  disk_after (curate ispokemon absorb d all_folders) !! k = Some v.
Proof.
  intros Hnd Hlisted Hk Hnot.
  destruct (curate_pass ispokemon absorb d all_folders Hnd Hlisted)
    as (d1 & m & lg & Hinv & -> & _ & _).
  destruct Hinv as (Ha & Hb & Hm & _).
  assert (current_path m k = k) as Hpk.
  { unfold current_path. destruct (m !! k) as [t|] eqn:E; [|done].
    apply Hm in E as [(Hin & n & Hc & _)%elem_of_rename_entries _].
    rewrite (Hnot Hin) in Hc. done. }
  rewrite process_foldl_other; [rewrite <- Hpk; by apply Ha|].
  intros item Hitem%list_elem_of_In%in_map_iff Heq.
  destruct Hitem as ([g n] & <- & [Hg Hc]%list_elem_of_In%elem_of_process_entries).
  cbn in Heq. assert (g = k) as ->.
  { apply Hb; [by apply Hlisted|by eexists|by rewrite Hpk]. }
  rewrite (Hnot Hg) in Hc. done.
Qed.

Lemma curate_others_untouched_witness :
  let d : gmap str node :=
    <[str_of "notes" := File]>
      (<[str_of "my folder" := Dir {[ str_of "a.txt" := str_of "x" ]}]> ∅) in
  disk_after (curate (fun _ => true) ∅ d [str_of "my folder"]) !! str_of "my folder"
  = Some (Dir {[ str_of "a.txt" := str_of "x" ]}).
Proof.
  intros d. apply curate_others_untouched.
  - apply NoDup_singleton.
  - intros f ->%list_elem_of_singleton. subst d.
    rewrite lookup_insert_ne by discriminate. rewrite lookup_insert_eq. by eexists.
  - subst d. rewrite lookup_insert_ne by discriminate. by rewrite lookup_insert_eq.
  - intros _. vm_compute. reflexivity.
Defined.

(** X19: every rename attempt finds its folder in place: no earlier rename of
    the pass has moved or replaced a folder that is still to be renamed. *)
Theorem curate_no_rename_error (ispokemon : str -> bool) (absorb : gset str)
    (d : gmap str node) (all_folders : list str) (o : str) :
  NoDup all_folders ->
  (forall f, f ∈ all_folders -> is_Some (d !! f)) ->
  RenameError o ∉ printed (curate ispokemon absorb d all_folders).
Proof.
  intros Hnd Hlisted.
  destruct (curate_pass ispokemon absorb d all_folders Hnd Hlisted)
    as (d1 & m & lg & Hinv & _ & -> & _).
  destruct Hinv as (_ & _ & _ & He). apply He.
Qed.

Lemma curate_no_rename_error_witness :
  RenameError (str_of "pikachu")
    ∉ printed (curate (fun _ => true) ∅
                 (<[str_of "pikachu" := Dir ∅]> ∅) [str_of "pikachu"]).
Proof.
  apply curate_no_rename_error.
  - apply NoDup_singleton.
  - intros f ->%list_elem_of_singleton. rewrite lookup_insert_eq. by eexists.
Defined.

(** * Text files: trimming and running again *)

Lemma is_space_not_comma c : is_space c = true -> is_comma c = false.
Proof. ascii_cases c; vm_compute; intros; congruence. Qed.

Lemma tag_pieces_space_char c b :
  is_space c = true -> tag_pieces (c :: b) = tag_pieces b.
Proof.
  intros Hc. unfold tag_pieces. cbn [split_on].
  rewrite (is_space_not_comma c Hc).
  pose proof (split_on_nonempty is_comma b) as Hne.
  destruct (split_on is_comma b) as [|p ps]; [done|]. cbn [map].
  unfold strip. cbn [lstrip]. by rewrite Hc.
Qed.

Lemma tag_pieces_lstrip s : tag_pieces (lstrip s) = tag_pieces s.
Proof.
  induction s as [|c s IH]; [done|]. cbn [lstrip].
  destruct (is_space c) eqn:Hc; [|done]. by rewrite tag_pieces_space_char.
Qed.

Lemma rstrip_nil_split s : rstrip s = [] -> split_on is_comma s = [s].
Proof.
  induction s as [|c s IH]; [done|]. cbn [rstrip split_on].
  destruct (rstrip s) as [|d r] eqn:Hr; [|done].
  destruct (is_space c) eqn:Hc; [|done]. intros _.
  by rewrite (is_space_not_comma c Hc), IH.
Qed.

Lemma rstrip_cons_nonempty c s : rstrip s <> [] -> rstrip (c :: s) = c :: rstrip s.
Proof. intros H. cbn [rstrip]. by destruct (rstrip s). Qed.

Lemma split_on_single sep s p : split_on sep s = [p] -> s = p.
Proof.
  revert p. induction s as [|c s IH]; intros p; cbn [split_on].
  - by intros [= <-].
  - pose proof (split_on_nonempty sep s) as Hne. destruct (sep c).
    + intros [= <- Hs]. done.
    + destruct (split_on sep s) as [|q qs]; [done|].
      intros [= <- ->]. by rewrite (IH q).
Qed.

Lemma split_on_rstrip s :
  split_on is_comma (rstrip s) = rstrip_last (split_on is_comma s).
Proof.
  induction s as [|c s IH]; [done|].
  destruct (rstrip s) as [|d r] eqn:Hr.
  - pose proof (rstrip_nil_split s Hr) as Hs. cbn [rstrip split_on].
    rewrite Hr, Hs. destruct (is_space c) eqn:Hc.
    + rewrite (is_space_not_comma c Hc). cbn [rstrip_last rstrip]. by rewrite Hr, Hc.
    + destruct (is_comma c) eqn:Hk; cbn [split_on rstrip_last rstrip]; rewrite Hk, ?Hr, ?Hc; done.
  - rewrite rstrip_cons_nonempty by congruence. rewrite <- Hr in *. cbn [split_on].
    rewrite IH. pose proof (split_on_nonempty is_comma s) as Hne.
    destruct (is_comma c) eqn:Hk.
    + destruct (split_on is_comma s); done.
    + destruct (split_on is_comma s) as [|p [|q ps]] eqn:Hs; [done| |done].
      cbn [rstrip_last]. f_equal. symmetry. apply rstrip_cons_nonempty.
      apply split_on_single in Hs. subst p. congruence.
Qed.

Lemma lstrip_rstrip p : lstrip (rstrip p) = rstrip (lstrip p).
Proof.
  induction p as [|a q IH]; [done|]. cbn [lstrip].
  destruct (is_space a) eqn:Ha.
  - cbn [rstrip]. destruct (rstrip q) as [|d r] eqn:Hr.
    + by rewrite Ha.
    + rewrite <- IH. cbn [lstrip]. by rewrite Ha.
  - cbn [rstrip]. destruct (rstrip q); rewrite ?Ha; cbn [lstrip]; by rewrite Ha.
Qed.

Lemma strip_rstrip p : strip (rstrip p) = strip p.
Proof. unfold strip. by rewrite lstrip_rstrip, rstrip_idem. Qed.

Lemma tag_pieces_rstrip s : tag_pieces (rstrip s) = tag_pieces s.
Proof.
  unfold tag_pieces. rewrite split_on_rstrip.
  induction (split_on is_comma s) as [|p ps IH]; [done|].
  destruct ps as [|q ps]; cbn [rstrip_last map]; [by rewrite strip_rstrip|].
  f_equal. apply IH.
Qed.

Lemma tag_pieces_strip s : tag_pieces (strip s) = tag_pieces s.
Proof. unfold strip. by rewrite tag_pieces_rstrip, tag_pieces_lstrip. Qed.

Lemma process_tags_strip s name absorb :
  process_tags (strip s) name absorb = process_tags s name absorb.
Proof. by rewrite !process_tags_stages, tag_pieces_strip. Qed.

(** X13: the trimming of the file content before [process_tags] changes
    nothing: blanks around the line are blanks around its first and last
    tag. *)
Theorem process_tags_strip_input (s name : str) (absorb : gset str) :
  process_tags (strip s) name absorb = process_tags s name absorb.
Proof. apply process_tags_strip. Qed.

Lemma process_tags_third s name absorb :
  no_comma name = true ->
  process_tags (process_tags (process_tags s name absorb) name absorb) name absorb
  = process_tags (process_tags s name absorb) name absorb.
Proof.
  intros Hname. pose proof (process_tags_twice s name absorb Hname) as H2.
  cbv zeta in H2.
  set (u := clean_tags name absorb (tag_pieces s)) in *.
  destruct (decide (lower (trigger_tag name) ∈ u \/ lower (trigger_tag name) ∈ absorb))
    as [Hyes|Hno].
  - by rewrite !H2.
  - rewrite H2. apply process_tags_fixed_present.
    + intros t [->|Ht]%elem_of_cons.
      * assert (lower (trigger_tag name) ∈ tag_pieces (trigger_tag name)) as Hin
          by (rewrite tag_pieces_trigger_tag by done; left).
        by apply tag_pieces_atoms in Hin as (_ & _ & ?).
      * by apply clean_tags_atoms in Ht as (_ & _ & ?).
    + unfold clean_tags. rewrite keep_tags_id.
      * apply dedup_NoDup, NoDup_cons. split; [|apply NoDup_clean_tags].
        intros Hin. apply Hno. by left.
      * intros t [->|Ht]%elem_of_cons.
        -- apply kept_lower_trigger. intros Hin. apply Hno. by right.
        -- by apply elem_of_clean_tags in Ht as [_ ?].
    + left.
Qed.

(** X15: running the processing of the text files of a folder again: the second
    run may still change a file (it lowers the trigger), a third run changes
    nothing any more. *)
Theorem curate_txt_settles (name : str) (absorb : gset str) (txt : gmap str str) :
  is_subject_name name = true ->
  curate_txt name absorb (curate_txt name absorb (curate_txt name absorb txt))
  = curate_txt name absorb (curate_txt name absorb txt).
Proof.
  intros Hname%subject_name_no_comma. unfold curate_txt.
  rewrite <- !map_fmap_compose. apply map_fmap_ext. intros f c _.
  unfold compose. rewrite !process_tags_strip. by apply process_tags_third.
Qed.

Lemma curate_txt_settles_witness :
  curate_txt (str_of "pikachu") ∅
    (curate_txt (str_of "pikachu") ∅
       (curate_txt (str_of "pikachu") ∅ {[ str_of "a.txt" := str_of " cute " ]}))
  = curate_txt (str_of "pikachu") ∅
      (curate_txt (str_of "pikachu") ∅ {[ str_of "a.txt" := str_of " cute " ]}).
Proof. apply curate_txt_settles. vm_compute. reflexivity. Defined.

(** X20: a candidate folder that already has its canonical name stays where
    it is: no line is printed about it, and its text files are processed
    under that name. *)
Theorem curate_canonical_in_place (ispokemon : str -> bool) (absorb : gset str)
    (d : gmap str node) (all_folders : list str) (g n : str) (txt : gmap str str) :
  NoDup all_folders ->
  (forall f, f ∈ all_folders -> is_Some (d !! f)) ->
  g ∈ all_folders ->
  candidate ispokemon g = Some n ->
  g = get_standard_folder_name n ->
  d !! g = Some (Dir txt) ->
  let r := curate ispokemon absorb d all_folders in
  disk_after r !! g = Some (Dir (curate_txt n absorb txt))
  /\ (forall e, e ∈ printed r -> event_folder e <> g).
Proof.
  intros Hnd Hlisted Hg Hc Hcanon Hd r. subst r.
  assert (g ∉ (all_folders ≫= rename_entry ispokemon).*1) as Hnot.
  { intros ([g' t] & Heq & (f & Hf & _)%list_elem_of_bind)%list_elem_of_fmap.
    cbn in Heq. subst g'.
    pose proof Hf as [_ Hfst]%rename_entry_single. cbn in Hfst. subst f.
    unfold rename_entry, should_rename_folder in Hf. rewrite Hc in Hf.
    rewrite bool_decide_eq_true_2 in Hf by done. by inversion Hf. }
  pose proof (rename_log_folders (all_folders ≫= rename_entry ispokemon) (d, ∅, []))
    as Hlog.
  destruct (curate_pass ispokemon absorb d all_folders Hnd Hlisted)
    as (d1 & m & lg & Hinv & -> & -> & Hrn).
  assert (current_path m g = g) as Hpg.
  { destruct Hinv as (_ & _ & Hm & _). unfold current_path.
    destruct (m !! g) as [t|] eqn:E; [|done].
    apply Hm in E as [E _]. destruct Hnot. by apply (list_elem_of_fmap_2 fst) in E. }
  split.
  - rewrite <- Hpg at 1. by eapply processed_at_current_path.
  - intros e He Heq. apply Hnot. rewrite <- Heq.
    apply Hlog; [by intros e' []%elem_of_nil|]. by rewrite Hrn.
Qed.

Lemma curate_canonical_in_place_witness :
  let d : gmap str node :=
    <[str_of "PikachuPokedex_IXL" := Dir {[ str_of "a.txt" := str_of "cute" ]}]> ∅ in
  let r := curate (fun _ => true) ∅ d [str_of "PikachuPokedex_IXL"] in
  disk_after r !! str_of "PikachuPokedex_IXL"
  = Some (Dir (curate_txt (str_of "pikachu") ∅ {[ str_of "a.txt" := str_of "cute" ]}))
  /\ (forall e, e ∈ printed r -> event_folder e <> str_of "PikachuPokedex_IXL").
Proof.
  intros d. apply curate_canonical_in_place.
  - apply NoDup_singleton.
  - intros f ->%list_elem_of_singleton. subst d. rewrite lookup_insert_eq. by eexists.
  - left.
  - vm_compute. reflexivity.
  - vm_compute. reflexivity.
  - subst d. by rewrite lookup_insert_eq.
Defined.

(** * Name Pattern Classifier: a line feed at the end *)

Lemma name_run_snoc_newline x : name_run (x ++ [newline]) = name_run x.
Proof.
  induction x as [|c x IH]; [done|]. cbn [app name_run]. by rewrite IH.
Qed.

Lemma match_literal_snoc ic literal s :
  forallb (fun p => negb (lit_eqb ic p newline)) literal = true ->
  match_literal ic literal (s ++ [newline])
  = option_map (fun r => r ++ [newline]) (match_literal ic literal s).
Proof.
  revert s. induction literal as [|p literal IH]; intros s Hlit; [done|].
  cbn [forallb] in Hlit. apply andb_prop in Hlit as [Hp%negb_true_iff Hlit].
  destruct s as [|c s]; cbn [app match_literal].
  - by rewrite Hp.
  - destruct (lit_eqb ic p c); [by apply IH|done].
Qed.

Lemma at_end_snoc r : at_end (r ++ [newline]) = bool_decide (r = []).
Proof.
  unfold at_end. destruct r as [|c [|d r]]; cbn [app]; [done| |];
    by rewrite !bool_decide_eq_false_2.
Qed.

Lemma match_tail_snoc ic literal x k :
  last x <> Some newline ->
  forallb (fun p => negb (lit_eqb ic p newline)) literal = true ->
  match_tail ic literal (drop k x ++ [newline]) = match_tail ic literal (drop k x).
Proof.
  intros Hlast Hlit. unfold match_tail. rewrite match_literal_snoc by done.
  destruct (match_literal ic literal (drop k x)) as [r|] eqn:E; [|done].
  cbn [option_map]. rewrite at_end_snoc. unfold at_end.
  apply match_literal_split in E as (m & Hs & _).
  destruct (decide (r = [newline])) as [->|Hr].
  - destruct Hlast. rewrite <- (take_drop k x), Hs, !app_assoc. apply last_snoc.
  - rewrite (bool_decide_eq_false_2 (r = [newline])) by done.
    by rewrite orb_false_r.
Qed.

Lemma backtrack_snoc_newline ic literal x k :
  last x <> Some newline ->
  forallb (fun p => negb (lit_eqb ic p newline)) literal = true ->
  k <= length x ->
  backtrack ic literal (x ++ [newline]) k = backtrack ic literal x k.
Proof.
  intros Hlast Hlit. induction k as [|k IH]; [done|]. intros Hk. cbn [backtrack].
  rewrite drop_app_le, take_app_le by lia.
  rewrite match_tail_snoc by done.
  destruct (match_tail ic literal (drop (S k) x)); [done|]. apply IH. lia.
Qed.

Lemma re_match_name_snoc_newline ic literal x :
  last x <> Some newline ->
  forallb (fun p => negb (lit_eqb ic p newline)) literal = true ->
  re_match_name ic literal (x ++ [newline]) = re_match_name ic literal x.
Proof.
  intros Hlast Hlit. unfold re_match_name. rewrite name_run_snoc_newline.
  apply backtrack_snoc_newline; [done|done|apply name_run_le].
Qed.

Lemma is_prefix_snoc needle h c :
  forallb (fun a => negb (bool_decide (a = c))) needle = true ->
  is_prefix needle (h ++ [c]) = is_prefix needle h.
Proof.
  revert h. induction needle as [|a p IH]; intros h Hc; [by destruct h|].
  cbn [forallb] in Hc. apply andb_prop in Hc as [Ha%negb_true_iff Hp].
  destruct h as [|b h]; cbn [app is_prefix]; [by rewrite Ha|].
  by rewrite IH.
Qed.

Lemma contains_snoc needle h c :
  forallb (fun a => negb (bool_decide (a = c))) needle = true ->
  contains needle (h ++ [c]) = contains needle h.
Proof.
  intros Hc. induction h as [|b h IH].
  - pose proof (is_prefix_snoc needle [] c Hc) as H. cbn [app] in H.
    cbn [app contains]. rewrite H. apply orb_diag.
  - pose proof (is_prefix_snoc needle (b :: h) c Hc) as H. cbn [app] in H.
    cbn [app contains]. by rewrite IH, H.
Qed.

(** X6: a single line feed at the end of a folder name is not looked at: [$]
    also matches just before it. *)
Theorem extract_pokemon_name_trailing_newline (x : str) :
  last x <> Some newline ->
  extract_pokemon_name (x ++ [newline]) = extract_pokemon_name x.
Proof.
  intros Hlast. unfold extract_pokemon_name.
  rewrite !re_match_name_snoc_newline by done.
  rewrite lower_app. cbn [lower map].
  change (char_lower newline) with newline.
  by rewrite !contains_snoc.
Qed.

Lemma extract_pokemon_name_trailing_newline_witness :
  extract_pokemon_name (str_of "Pikachu_(pokemon)" ++ [newline])
  = extract_pokemon_name (str_of "Pikachu_(pokemon)").
Proof.
  apply extract_pokemon_name_trailing_newline. vm_compute. discriminate.
Defined.

(** * The classifier on strings of code points *)

Lemma unicode_is_name_char ic c :
  is_ascii c = true -> Unicode.is_name_char ic (N_of_ascii c) = is_name_char c.
Proof. destruct ic; ascii_cases c; vm_compute; intros; congruence. Qed.

Lemma unicode_fold c :
  is_ascii c = true -> Unicode.fold (N_of_ascii c) = N_of_ascii (char_lower c).
Proof. ascii_cases c; vm_compute; intros; congruence. Qed.

Lemma unicode_char_lower c :
  is_ascii c = true -> Unicode.char_lower (N_of_ascii c) = [N_of_ascii (char_lower c)].
Proof. ascii_cases c; vm_compute; intros; congruence. Qed.

Lemma unicode_is_subject_char c :
  is_subject_char c = true -> Unicode.is_subject_char (N_of_ascii c) = true.
Proof. ascii_cases c; vm_compute; intros; congruence. Qed.

Lemma unicode_not_special c :
  is_ascii c = true ->
  (N_of_ascii c =? Unicode.capital_i_dot)%N = false
  /\ (N_of_ascii c =? Unicode.dotless_i)%N = false
  /\ (N_of_ascii c =? Unicode.long_s)%N = false
  /\ (N_of_ascii c =? Unicode.kelvin)%N = false.
Proof. ascii_cases c; vm_compute; intros; repeat split; congruence. Qed.

Lemma unicode_newline c :
  (N_of_ascii c =? Unicode.newline)%N = bool_decide ([c] = [newline]).
Proof. ascii_cases c; vm_compute; reflexivity. Qed.

Lemma N_of_ascii_eqb a b : (N_of_ascii a =? N_of_ascii b)%N = bool_decide (a = b).
Proof.
  destruct (decide (a = b)) as [->|Hab].
  - by rewrite N.eqb_refl, bool_decide_true.
  - rewrite bool_decide_false by done. apply N.eqb_neq. intros H.
    apply Hab. by rewrite <- (ascii_N_embedding a), H, ascii_N_embedding.
Qed.

Lemma is_ascii_char_lower c : is_ascii c = true -> is_ascii (char_lower c) = true.
Proof. ascii_cases c; vm_compute; intros; congruence. Qed.

Lemma is_ascii_lower s : forallb is_ascii s = true -> forallb is_ascii (lower s) = true.
Proof.
  unfold lower. induction s as [|c s IH]; [done|]. cbn [map forallb].
  intros [Hc Hs]%andb_prop. by rewrite is_ascii_char_lower, IH.
Qed.

Lemma is_ascii_drop k s : forallb is_ascii s = true -> forallb is_ascii (drop k s) = true.
Proof.
  revert k. induction s as [|c s IH]; intros [|k]; try done.
  cbn [drop forallb]. intros [_ Hs]%andb_prop. by apply IH.
Qed.

Lemma is_ascii_take k s : forallb is_ascii s = true -> forallb is_ascii (take k s) = true.
Proof.
  revert k. induction s as [|c s IH]; intros [|k]; try done.
  cbn [take forallb]. intros [Hc Hs]%andb_prop. by rewrite Hc, IH.
Qed.

Lemma unicode_lit_eqb ic p c :
  is_ascii p = true -> is_ascii c = true ->
  Unicode.lit_eqb ic (N_of_ascii p) (N_of_ascii c) = lit_eqb ic p c.
Proof.
  intros Hp Hc. unfold Unicode.lit_eqb, lit_eqb. destruct ic.
  - destruct (unicode_not_special c Hc) as (-> & -> & -> & ->).
    rewrite !unicode_fold by done. rewrite !andb_false_r, !orb_false_r.
    apply N_of_ascii_eqb.
  - apply N_of_ascii_eqb.
Qed.

Lemma unicode_match_literal ic pat s :
  forallb is_ascii pat = true -> forallb is_ascii s = true ->
  Unicode.match_literal ic (Unicode.of_ascii pat) (Unicode.of_ascii s)
  = Unicode.of_ascii <$> match_literal ic pat s.
Proof.
  revert s. induction pat as [|p pat IH]; intros s Hp Hs; [done|].
  destruct s as [|c s]; [done|].
  cbn [forallb] in Hp, Hs.
  apply andb_prop in Hp as [Hp Hpat]. apply andb_prop in Hs as [Hc Hs].
  cbn [Unicode.of_ascii map Unicode.match_literal match_literal].
  rewrite unicode_lit_eqb by done.
  destruct (lit_eqb ic p c); [by apply IH|done].
Qed.

Lemma unicode_at_end s : Unicode.at_end (Unicode.of_ascii s) = at_end s.
Proof.
  unfold at_end. destruct s as [|c [|d s]]; [done| |].
  - cbn [Unicode.of_ascii map Unicode.at_end].
    rewrite unicode_newline. by rewrite (bool_decide_false ([c] = [])).
  - by rewrite !bool_decide_false.
Qed.

Lemma unicode_match_tail ic literal s :
  forallb is_ascii literal = true -> forallb is_ascii s = true ->
  Unicode.match_tail ic (Unicode.of_ascii literal) (Unicode.of_ascii s)
  = match_tail ic literal s.
Proof.
  intros Hl Hs. unfold Unicode.match_tail, match_tail.
  rewrite unicode_match_literal by done.
  destruct (match_literal ic literal s) as [r|]; [|done].
  apply unicode_at_end.
Qed.

Lemma unicode_name_run ic s :
  forallb is_ascii s = true ->
  Unicode.name_run ic (Unicode.of_ascii s) = name_run s.
Proof.
  induction s as [|c s IH]; [done|].
  cbn [forallb]. intros [Hc Hs]%andb_prop.
  cbn [Unicode.of_ascii map Unicode.name_run name_run].
  rewrite unicode_is_name_char by done.
  destruct (is_name_char c); [|done]. f_equal. by apply IH.
Qed.

Lemma unicode_backtrack ic literal s k :
  forallb is_ascii literal = true -> forallb is_ascii s = true ->
  Unicode.backtrack ic (Unicode.of_ascii literal) (Unicode.of_ascii s) k
  = Unicode.of_ascii <$> backtrack ic literal s k.
Proof.
  intros Hl Hs. induction k as [|k IH]; [done|].
  cbn [Unicode.backtrack backtrack].
  unfold Unicode.of_ascii at 2 3. rewrite skipn_map, firstn_map.
  fold (Unicode.of_ascii (drop (S k) s)). fold (Unicode.of_ascii (take (S k) s)).
  rewrite unicode_match_tail by (done || by apply is_ascii_drop).
  destruct (match_tail ic literal (drop (S k) s)); [done|]. apply IH.
Qed.

Lemma unicode_re_match_name ic literal s :
  forallb is_ascii literal = true -> forallb is_ascii s = true ->
  Unicode.re_match_name ic (Unicode.of_ascii literal) (Unicode.of_ascii s)
  = Unicode.of_ascii <$> re_match_name ic literal s.
Proof.
  intros Hl Hs. unfold Unicode.re_match_name, re_match_name.
  rewrite unicode_name_run by done. by apply unicode_backtrack.
Qed.

Lemma re_match_name_is_ascii ic literal s g :
  forallb is_ascii s = true -> re_match_name ic literal s = Some g ->
  forallb is_ascii g = true.
Proof.
  intros Hs (_ & _ & m & r & -> & _)%re_match_name_Some.
  rewrite forallb_app in Hs. by apply andb_prop in Hs as [Hg _].
Qed.

Lemma unicode_lower s :
  forallb is_ascii s = true ->
  Unicode.lower (Unicode.of_ascii s) = Unicode.of_ascii (lower s).
Proof.
  induction s as [|c s IH]; [done|].
  cbn [forallb]. intros [Hc Hs]%andb_prop.
  unfold Unicode.lower in *. cbn [Unicode.of_ascii map concat lower].
  rewrite unicode_char_lower by done. cbn [app]. f_equal. by apply IH.
Qed.

Lemma unicode_is_prefix p s :
  Unicode.is_prefix (Unicode.of_ascii p) (Unicode.of_ascii s) = is_prefix p s.
Proof.
  revert s. induction p as [|a p IH]; intros [|b s]; try done.
  cbn [Unicode.of_ascii map Unicode.is_prefix is_prefix].
  rewrite N_of_ascii_eqb. f_equal. apply IH.
Qed.

Lemma unicode_contains needle hay :
  Unicode.contains (Unicode.of_ascii needle) (Unicode.of_ascii hay)
  = contains needle hay.
Proof.
  induction hay as [|c hay IH].
  - apply (unicode_is_prefix needle []).
  - cbn [Unicode.of_ascii map Unicode.contains contains].
    rewrite <- IH. f_equal. apply (unicode_is_prefix needle (c :: hay)).
Qed.

(** On ASCII folder names the classifier on code points is the classifier
    on characters. *)
Lemma unicode_extract_pokemon_name x :
  forallb is_ascii x = true ->
  Unicode.extract_pokemon_name (Unicode.of_ascii x)
  = Unicode.of_ascii <$> extract_pokemon_name x.
Proof.
  intros Hx. unfold Unicode.extract_pokemon_name, extract_pokemon_name.
  rewrite !unicode_re_match_name by (done || (vm_compute; reflexivity)).
  change (Unicode.re_match_name false [] (Unicode.of_ascii x))
    with (Unicode.re_match_name false (Unicode.of_ascii []) (Unicode.of_ascii x)).
  rewrite unicode_re_match_name by done.
  rewrite unicode_lower, !unicode_contains by done.
  repeat match goal with
  | |- context [re_match_name ?ic ?l x] =>
      let H := fresh "H" in
      destruct (re_match_name ic l x) eqn:H;
      [apply re_match_name_is_ascii in H; [|done]|];
      cbn [fmap option_fmap option_map]
  end;
  rewrite ?unicode_lower by done; try done.
  by destruct (negb _ && negb _).
Qed.

Lemma of_ascii_small (x : list N) :
  forallb (fun c => (c <? 128)%N) x = true ->
  exists s, x = Unicode.of_ascii s /\ forallb is_ascii s = true.
Proof.
  induction x as [|c x IH]; [by exists []|].
  cbn [forallb]. intros [Hc Hx]%andb_prop.
  destruct (IH Hx) as (s & -> & Hs). apply N.ltb_lt in Hc.
  exists (ascii_of_N c :: s). cbn [Unicode.of_ascii map forallb].
  rewrite N_ascii_embedding by lia. split; [done|].
  rewrite Hs, andb_true_r. unfold is_ascii, code, nat_of_ascii.
  rewrite N_ascii_embedding by lia. apply Nat.ltb_lt. lia.
Qed.

(** C9 fails on the folder name made of U+0130, capital I with a dot,
    followed by [Pokedex_IXL]: format 1 matches, and the lower case of the
    group is [i] followed by U+0307, the combining dot, which is no letter,
    digit, underscore or hyphen. *)
Theorem extract_pokemon_name_capital_i_dot :
  Unicode.extract_pokemon_name
    (Unicode.capital_i_dot :: Unicode.of_ascii (str_of "Pokedex_IXL"))
  = Some [105%N; Unicode.combining_dot]
  /\ forallb Unicode.is_subject_char [105%N; Unicode.combining_dot] = false.
Proof. vm_compute. split; reflexivity. Qed.

(** X21: on a folder name of ASCII characters the classifier returns
    nothing, or a non-empty string of lower-case letters, digits,
    underscores and hyphens. *)
Theorem extract_pokemon_name_charset (x : list N) :
  forallb (fun c => (c <? 128)%N) x = true ->
  Unicode.extract_pokemon_name x = None
  \/ exists n, Unicode.extract_pokemon_name x = Some n
               /\ n <> [] /\ forallb Unicode.is_subject_char n = true.
Proof.
  intros (s & -> & Hs)%of_ascii_small.
  rewrite unicode_extract_pokemon_name by done.
  destruct (extract_pokemon_name s) as [n|] eqn:E; [right|by left].
  exists (Unicode.of_ascii n). split; [done|].
  apply extract_pokemon_name_subject in E. unfold is_subject_name in E.
  apply andb_prop in E as [Hn Hc]. split; [by destruct n|].
  clear Hn. unfold Unicode.of_ascii. induction n as [|c n IH]; [done|].
  cbn [forallb] in Hc. apply andb_prop in Hc as [Hc Hr].
  cbn [map forallb]. by rewrite unicode_is_subject_char, IH.
Qed.

Lemma extract_pokemon_name_charset_witness :
  Unicode.extract_pokemon_name (Unicode.of_ascii (str_of "Mr-Mime_(Pokemon)")) = None
  \/ exists n,
       Unicode.extract_pokemon_name (Unicode.of_ascii (str_of "Mr-Mime_(Pokemon)"))
       = Some n
       /\ n <> [] /\ forallb Unicode.is_subject_char n = true.
Proof. apply extract_pokemon_name_charset. vm_compute. reflexivity. Defined.
